(** * update_icon.py: inlining the highlighter icon as a data URI

    A shallow embedding of [src/update_icon.py].  Python text ([str]) is a
    list of Unicode code points; the two files the script touches live in a
    finite map from paths to what they name; the script itself is a program in
    a small monad that threads the file system, records every file-system
    call and every printed line, and stops at [exit] or at an uncaught
    exception. *)

From stdpp Require Import gmap list strings.

(** * Part I: the model

    ** Literal substring search and replacement ([str.replace]) *)

Section text_search.
Context {A : Type} `{EqDecision A}.
Implicit Types (s t old new a b c : list A) (i k : nat).

(** [s.startswith(t)] *)
Fixpoint startswith t s : bool :=
  match t, s with
  | [], _ => true
  | _ :: _, [] => false
  | x :: t', y :: s' => if decide (x = y) then startswith t' s' else false
  end.

(** The scan of [s.replace(old, new)] for a non-empty [old]: leftmost
    match first, the matched characters are consumed ([skip] counts the
    ones still to drop), so matches never overlap. *)
Fixpoint replace_go old new (skip : nat) s : list A :=
  match s with
  | [] => []
  | x :: s' =>
      match skip with
      | S k => replace_go old new k s'
      | O =>
          if startswith old s
          then new ++ replace_go old new (length old - 1) s'
          else x :: replace_go old new 0 s'
      end
  end.

(** [s.replace(old, new)].  With an empty [old] Python inserts [new]
    before every character and at the end. *)
Definition replace old new s : list A :=
  match old with
  | [] => new ++ flat_map (λ x, x :: new) s
  | _ :: _ => replace_go old new 0 s
  end.

(** [t] occurs in [s] at offset [i]. *)
Definition occ_at t s i : Prop := t `prefix_of` drop i s.

(** Number of offsets of [s] at which [t] occurs. *)
Fixpoint occurrences t s : nat :=
  (if startswith t s then 1 else 0) +
  match s with
  | [] => 0
  | _ :: s' => occurrences t s'
  end.

(** [sep.join(xs)] *)
Fixpoint join (sep : list A) (xs : list (list A)) : list A :=
  match xs with
  | [] => []
  | [x] => x
  | x :: xs' => x ++ sep ++ join sep xs'
  end.

(** [w] keeps clear of the block [B]: wherever [B] sits in a text, an
    occurrence of [w] lies wholly before it, wholly after it, or is that
    very block. *)
Definition clear_of w B : Prop :=
  ∀ a c i, occ_at w (a ++ B ++ c) i →
    i + length w ≤ length a ∨ length a + length B ≤ i ∨
    (w = B ∧ i = length a).

End text_search.

(** A word framed by the marker [q]: [X q Y q]. *)
Definition frame {A : Type} (q : A) (X Y : list A) : list A :=
  X ++ q :: Y ++ [q].

(** Two replacements, first [t1] by [r1], then [t2] by [r2]. *)
Definition subst12 {A : Type} `{EqDecision A} (t1 t2 r1 r2 s : list A) : list A :=
  replace t2 r2 (replace t1 r1 s).

(** The same two replacements in the opposite order. *)
Definition subst21 {A : Type} `{EqDecision A} (t1 t2 r1 r2 s : list A) : list A :=
  replace t1 r1 (replace t2 r2 s).

(** ** Python text *)

(** A [str] is a sequence of code points. *)
Abbreviation str := (list N).

(** The code points of an ASCII literal of the script. *)
Fixpoint lit (s : string) : str :=
  match s with
  | EmptyString => []
  | String ch s' => Ascii.N_of_ascii ch :: lit s'
  end.

Definition apostrophe : N := 39.
Definition dquote : N := 34.
Definition CR : N := 13.
Definition LF : N := 10.

(** [ch.isspace()]: the white-space code points of Unicode. *)
Definition isspace (ch : N) : bool :=
  ((9 <=? ch) && (ch <=? 13) || (28 <=? ch) && (ch <=? 32) ||
   (ch =? 133) || (ch =? 160) || (ch =? 5760) ||
   (8192 <=? ch) && (ch <=? 8202) || (ch =? 8232) || (ch =? 8233) ||
   (ch =? 8239) || (ch =? 8287) || (ch =? 12288))%N.

Fixpoint lstrip (s : str) : str :=
  match s with
  | [] => []
  | ch :: s' => if isspace ch then lstrip s' else s
  end.

Definition rstrip (s : str) : str := reverse (lstrip (reverse s)).

(** [s.strip()] *)
Definition strip (s : str) : str := rstrip (lstrip s).

(** Reading in text mode with the default [newline=None]: a carriage return,
    alone or followed by a line feed, is handed over as one line feed. *)
Fixpoint universal_newlines (s : str) : str :=
  match s with
  | [] => []
  | ch :: s' =>
      if (ch =? CR)%N then
        LF :: match s' with
              | ch' :: s'' =>
                  if (ch' =? LF)%N then universal_newlines s''
                  else universal_newlines s'
              | [] => []
              end
      else ch :: universal_newlines s'
  end.

(** ** The constants and pure steps of the script *)

Definition icons_path : str := lit "/Users/isaiahcalvo/Desktop/Survey/src/Icons.jsx".
Definition b64_path : str :=
  lit "/Users/isaiahcalvo/Desktop/Survey/temp_highlighter_b64.txt".

Definition uri_prefix : str := lit "data:image/png;base64,".

(** [data_uri = f'data:image/png;base64,{b64_content}'] *)
Definition data_uri (b64_content : str) : str := uri_prefix ++ b64_content.

Definition target_mask : str :=
  lit "maskImage: 'url(" ++ dquote :: lit "/highlighter-icon.png" ++
  dquote :: lit ")'".
Definition target_webkit : str :=
  lit "WebkitMaskImage: 'url(" ++ dquote :: lit "/highlighter-icon.png" ++
  dquote :: lit ")'".

Definition replacement_mask (uri : str) : str :=
  lit "maskImage: 'url(" ++ dquote :: uri ++ dquote :: lit ")'".
Definition replacement_webkit (uri : str) : str :=
  lit "WebkitMaskImage: 'url(" ++ dquote :: uri ++ dquote :: lit ")'".

(** The two [replace] calls, in the order of the script. *)
Definition new_content (uri content : str) : str :=
  replace target_webkit (replacement_webkit uri)
    (replace target_mask (replacement_mask uri) content).

(** The same two calls in the opposite order. *)
Definition new_content_swapped (uri content : str) : str :=
  replace target_mask (replacement_mask uri)
    (replace target_webkit (replacement_webkit uri) content).

Definition not_found_message (path : str) : str :=
  lit "Error: " ++ path ++ lit " not found".
Definition warning_message : str :=
  lit "Warning: No changes made. Targets might not match.".
Definition success_message : str :=
  lit "Successfully updated Icons.jsx with base64 icon.".

(** ** The file system, the trace and the monad of the script *)

Inductive mode := ModeR | ModeW.

Inductive event :=
  | EvExists (path : str)
  | EvOpen (path : str) (m : mode)
  | EvRead (path : str)
  | EvWrite (path : str) (data : str)
  | EvPrint (line : str).

(** What a path of the file system names.  [os.path.exists] is true of
    each; only a [Text] can be opened, read and decoded. *)
Inductive node :=
  | Text (data : str)   (* a regular file holding text *)
  | Directory           (* a directory *)
  | Unreadable          (* a regular file the process may not read *)
  | Undecodable.        (* a regular file whose bytes are no text in the
                           encoding of the platform *)

(** [open(path, 'r')] and [read()] on a node: the text handed over, or the
    name of the exception raised. *)
Definition read_node (n : node) : str + str :=
  match n with
  | Text data => inl (universal_newlines data)
  | Directory => inr (lit "IsADirectoryError")
  | Unreadable => inr (lit "PermissionError")
  | Undecodable => inr (lit "UnicodeDecodeError")
  end.

Record world := World {
  files : gmap str node;  (* what each existing path names *)
  trace : list event;     (* what the process did so far, oldest first *)
  others : list (gmap str node → gmap str node)
                          (* what other processes do to the file system
                             before each coming file-system call of the
                             script, first call first; nothing once the
                             list is used up *)
}.

Inductive outcome (A : Type) :=
  | Ret (a : A)
  | Exit (code : Z)
  | Uncaught (exception : str).
Arguments Ret {A} a.
Arguments Exit {A} code.
Arguments Uncaught {A} exception.

Definition M (A : Type) : Type := world → outcome A * world.

#[global] Instance M_ret : MRet M := λ A a w, (Ret a, w).
#[global] Instance M_bind : MBind M := λ A B f m w,
  match m w with
  | (Ret a, w') => f a w'
  | (Exit code, w') => (Exit code, w')
  | (Uncaught e, w') => (Uncaught e, w')
  end.

Definition log (e : event) : M unit :=
  λ w, (Ret (), World (files w) (trace w ++ [e]) (others w)).

(** The file system as the next file-system call of the script finds it. *)
Definition interfere (w : world) : world :=
  match others w with
  | [] => w
  | change :: rest => World (change (files w)) (trace w) rest
  end.

(** [os.path.exists(path)] *)
Definition path_exists (path : str) : M bool :=
  λ w0, let w := interfere w0 in
        (Ret (bool_decide (is_Some (files w !! path))),
         World (files w) (trace w ++ [EvExists path]) (others w)).

(** [print(line)] *)
Definition print (line : str) : M unit := log (EvPrint line).

(** [exit(code)] *)
Definition exit {A} (code : Z) : M A := λ w, (Exit code, w).

(** [with open(path, 'r') as f: f.read()] *)
Definition read_text (path : str) : M str :=
  λ w0, let w := interfere w0 in
        match files w !! path with
        | Some n =>
            match read_node n with
            | inl text =>
                (Ret text,
                 World (files w) (trace w ++ [EvOpen path ModeR; EvRead path])
                       (others w))
            | inr exception =>
                (Uncaught exception,
                 World (files w) (trace w ++ [EvOpen path ModeR]) (others w))
            end
        | None =>
            (Uncaught (lit "FileNotFoundError"),
             World (files w) (trace w ++ [EvOpen path ModeR]) (others w))
        end.

(** [with open(path, 'w') as f: f.write(data)]; the line separator of the
    platform of the script's paths is the line feed, so the text is stored
    as it is.  A directory cannot be opened for writing; write permissions
    and full disks are not modelled. *)
Definition write_text (path data : str) : M unit :=
  λ w0, let w := interfere w0 in
        match files w !! path with
        | Some Directory =>
            (Uncaught (lit "IsADirectoryError"),
             World (files w) (trace w ++ [EvOpen path ModeW]) (others w))
        | _ =>
            (Ret (),
             World (<[path := Text data]> (files w))
                   (trace w ++ [EvOpen path ModeW; EvWrite path data])
                   (others w))
        end.

Definition when (c : bool) (m : M unit) : M unit :=
  if c then m else mret ().

(** The script, statement by statement. *)
Definition main : M unit :=
  found ← path_exists icons_path;
  when (negb found) (print (not_found_message icons_path);; exit 1);;
  found ← path_exists b64_path;
  when (negb found) (print (not_found_message b64_path);; exit 1);;
  raw ← read_text b64_path;
  let b64_content := strip raw in
  let uri := data_uri b64_content in
  content ← read_text icons_path;
  let new := new_content uri content in
  if bool_decide (content = new)
  then print warning_message
  else write_text icons_path new;; print success_message.

(** One run of the script on a file system that nothing else changes
    meanwhile. *)
Definition run (fs : gmap str node) : outcome unit * world :=
  main (World fs [] []).

(** One run of the script while other processes change the file system as
    [changes] says. *)
Definition run_among (changes : list (gmap str node → gmap str node))
    (fs : gmap str node) : outcome unit * world :=
  main (World fs [] changes).

(** The exit status the shell sees. *)
Definition status (r : outcome unit * world) : Z :=
  match r.1 with
  | Ret _ => 0
  | Exit code => code
  | Uncaught _ => 1
  end.

Definition is_print (e : event) : option str :=
  match e with EvPrint line => Some line | _ => None end.

(** The lines written to standard output. *)
Definition stdout (r : outcome unit * world) : list str :=
  omap is_print (trace r.2).

(** The paths opened, with the mode of each [open]. *)
Definition opened (r : outcome unit * world) : list (str * mode) :=
  omap (λ e, match e with EvOpen p m => Some (p, m) | _ => None end)
       (trace r.2).

(** An event that opens, reads or writes a file. *)
Definition touches_file (e : event) : bool :=
  match e with
  | EvOpen _ _ | EvRead _ | EvWrite _ _ => true
  | _ => false
  end.

(** The paths a run wrote to. *)
Definition written (r : outcome unit * world) : list str :=
  omap (λ e, match e with EvWrite p _ => Some p | _ => None end) (trace r.2).

(** ** Devices of the specification *)

(** The parts of the four words of the script around their apostrophes. *)
Definition X_mask : str := lit "maskImage: ".
Definition X_webkit : str := lit "WebkitMaskImage: ".
Definition Y_target : str :=
  lit "url(" ++ dquote :: lit "/highlighter-icon.png" ++ dquote :: lit ")".
Definition Y_uri (uri : str) : str :=
  lit "url(" ++ dquote :: uri ++ dquote :: lit ")".

(** The two placeholders and what the script puts in their place for the
    payload [b64]. *)
Definition script_words (b64 : str) : list str :=
  [target_mask; target_webkit;
   replacement_mask (data_uri b64); replacement_webkit (data_uri b64)].

(** The trace of a run that reaches the comparison. *)
Definition trace_reads : list event :=
  [EvExists icons_path; EvExists b64_path;
   EvOpen b64_path ModeR; EvRead b64_path;
   EvOpen icons_path ModeR; EvRead icons_path].

(** A placeholder site of a text. *)
Inductive site := Mask | Webkit.

Definition target_of (k : site) : str :=
  match k with Mask => target_mask | Webkit => target_webkit end.

Definition replacement_of (uri : str) (k : site) : str :=
  match k with Mask => replacement_mask uri | Webkit => replacement_webkit uri end.

(** The text [x0 w1 x1 w2 x2 ...] where [wi] is the word of the i-th site. *)
Fixpoint weave (word : site → str) (x : str) (rest : list (site * str)) : str :=
  match rest with
  | [] => x
  | (k, x') :: rest' => x ++ word k ++ weave word x' rest'
  end.

(** The characters of base64 text: letters, digits, [+], [/] and the
    padding [=]. *)
Definition base64_char (ch : N) : bool :=
  ((65 <=? ch) && (ch <=? 90) || (97 <=? ch) && (ch <=? 122) ||
   (48 <=? ch) && (ch <=? 57) || (ch =? 43) || (ch =? 47) || (ch =? 61))%N.

(** The path [p] exists in [fs] but opening or reading it raises. *)
Definition unreadable (fs : gmap str node) (p : str) : Prop :=
  ∃ n e, fs !! p = Some n ∧ read_node n = inr e.

(** A segment that holds neither placeholder. *)
Definition target_free (x : str) : Prop :=
  occurrences target_mask x = 0 ∧ occurrences target_webkit x = 0.

(** File systems used as examples. *)
Definition fs_payload_is_target : gmap str node :=
  {[ icons_path := Text target_mask; b64_path := Text target_mask ]}.

Definition fs_without_targets : gmap str node :=
  {[ icons_path := Text (lit "const icon = null;" ++ [CR; LF]);
     b64_path := Text (lit "  abcd1234==" ++ [LF]) ]}.

Definition fs_with_targets : gmap str node :=
  {[ icons_path :=
       Text (lit "a { " ++ target_mask ++ lit "; " ++ target_webkit ++ lit " }");
     b64_path := Text (lit "  abcd1234==" ++ [LF]) ]}.

(** Both paths exist, but the payload path is a directory. *)
Definition fs_payload_directory : gmap str node :=
  {[ icons_path := Text target_mask; b64_path := Directory ]}.

(** Both paths exist, but the icons file cannot be decoded. *)
Definition fs_icons_undecodable : gmap str node :=
  {[ icons_path := Undecodable; b64_path := Text (lit "QUJD") ]}.

(** Every [open] of the trace [tr] is of a path that an existence check
    earlier in the trace found: [fs] is the file system of the run, on which
    a check of [p] finds [p] when [fs] holds it, and [found] holds the paths
    found so far. *)
Fixpoint opens_guarded (fs : gmap str node) (found : list str)
    (tr : list event) : bool :=
  match tr with
  | [] => true
  | EvExists p :: tr' =>
      opens_guarded fs
        (if bool_decide (is_Some (fs !! p)) then p :: found else found) tr'
  | EvOpen p _ :: tr' => bool_decide (p ∈ found) && opens_guarded fs found tr'
  | _ :: tr' => opens_guarded fs found tr'
  end.

(** An icons file with carriage-return line-feed line ends. *)
Definition fs_crlf : gmap str node :=
  {[ icons_path := Text (lit "x" ++ [CR; LF] ++ target_mask ++ [CR; LF]);
     b64_path := Text (lit "QUJD" ++ [CR; LF]) ]}.

(** A payload file of white space only. *)
Definition fs_blank_payload : gmap str node :=
  {[ icons_path := Text target_webkit; b64_path := Text [32; CR; LF; 9]%N ]}.

(** * Part II: facts

    ** Literal substring search and replacement *)

Section scan.
Context {A : Type} `{EqDecision A}.
Implicit Types (s t old new a b c : list A) (i k : nat).

Lemma startswith_prefix t s : startswith t s = true ↔ t `prefix_of` s.
Proof.
  revert s. induction t as [|x t IH]; intros [|y s]; simpl.
  - split; [intros _; apply prefix_nil | done].
  - split; [intros _; apply prefix_nil | done].
  - split; [done | intros H; by apply prefix_nil_inv in H].
  - case_decide as Hxy.
    + subst y. rewrite IH. split.
      * apply prefix_cons.
      * intros H. by apply prefix_cons_inv_2 in H.
    + split; [done | intros H; by apply prefix_cons_inv_1 in H].
Qed.

Lemma startswith_false t s : startswith t s = false ↔ ¬ t `prefix_of` s.
Proof. rewrite <- startswith_prefix. by destruct (startswith t s). Qed.

Lemma startswith_app t b : startswith t (t ++ b) = true.
Proof. apply startswith_prefix, prefix_app_r. done. Qed.

Lemma occ_at_bound t s i : t ≠ [] → occ_at t s i → i + length t ≤ length s.
Proof.
  intros Hne H. apply prefix_length in H. rewrite length_drop in H.
  destruct t; [done|]. simpl in *. lia.
Qed.

Lemma occ_at_lookup t s i k x :
  occ_at t s i → t !! k = Some x → s !! (i + k) = Some x.
Proof.
  intros [r Hr] Hk. rewrite <- lookup_drop, Hr.
  by apply lookup_app_l_Some.
Qed.

Lemma prefix_app_short t a b :
  t `prefix_of` a ++ b → length t ≤ length a → t `prefix_of` a.
Proof.
  intros [r Hr] Hlen. exists (drop (length t) a).
  rewrite <- (take_drop (length t) a) at 1. f_equal.
  rewrite <- (take_app_le a b) by done. rewrite Hr.
  by rewrite take_app_length.
Qed.

Lemma occ_at_inside t a b i :
  occ_at t (a ++ b) i → i + length t ≤ length a → occ_at t a i.
Proof.
  unfold occ_at. intros H Hlen. rewrite drop_app_le in H by lia.
  apply prefix_app_short in H; [done|]. rewrite length_drop. lia.
Qed.

Lemma occ_at_app_l t a b i : t ≠ [] → occ_at t a i → occ_at t (a ++ b) i.
Proof.
  intros Hne H. pose proof (occ_at_bound _ _ _ Hne H).
  unfold occ_at in *. rewrite drop_app_le by lia. by apply prefix_app_r.
Qed.

Lemma occ_at_here t a b : occ_at t (a ++ t ++ b) (length a).
Proof.
  unfold occ_at. rewrite drop_app_length. by apply prefix_app_r.
Qed.

(** *** Equations of the scan *)

Lemma replace_go_skip old new k s :
  replace_go old new k s = replace_go old new 0 (drop k s).
Proof.
  revert k. induction s as [|x s IH]; intros [|k]; simpl; auto.
Qed.

Lemma replace_nil old new : replace old new [] = match old with [] => new | _ => [] end.
Proof. destruct old; simpl; [by rewrite app_nil_r | done]. Qed.

Lemma replace_miss old new x s :
  old ≠ [] → ¬ old `prefix_of` x :: s →
  replace old new (x :: s) = x :: replace old new s.
Proof.
  intros Hne Hp. destruct old as [|y old]; [done|].
  unfold replace. cbn [replace_go].
  apply startswith_false in Hp. by rewrite Hp.
Qed.

Lemma replace_hit old new b :
  old ≠ [] → replace old new (old ++ b) = new ++ replace old new b.
Proof.
  intros Hne. destruct old as [|y old]; [done|].
  unfold replace. change ((y :: old) ++ b) with (y :: (old ++ b)).
  cbn [replace_go].
  change (y :: (old ++ b)) with ((y :: old) ++ b).
  rewrite startswith_app. f_equal.
  rewrite replace_go_skip. simpl. rewrite Nat.sub_0_r.
  by rewrite drop_app_length.
Qed.

(** A stretch in which no match starts is copied unchanged. *)
Lemma replace_skip old new a b :
  old ≠ [] → (∀ i, i < length a → ¬ occ_at old (a ++ b) i) →
  replace old new (a ++ b) = a ++ replace old new b.
Proof.
  intros Hne. induction a as [|x a IH]; intros Hno; [done|].
  simpl. rewrite replace_miss; [|done|].
  - f_equal. apply IH. intros i Hi. apply (Hno (S i)). simpl. lia.
  - apply (Hno 0). simpl. lia.
Qed.

Lemma occurrences_0 t s :
  t ≠ [] → occurrences t s = 0 ↔ ∀ i, ¬ occ_at t s i.
Proof.
  intros Hne. induction s as [|x s IH]; simpl.
  - destruct t as [|y t]; [done|]. simpl. split; [|done].
    intros _ i Hi. apply (occ_at_bound _ _ _ Hne) in Hi. simpl in Hi. lia.
  - destruct (startswith t (x :: s)) eqn:Hsw.
    + split; [done|]. intros Hno. exfalso. apply (Hno 0).
      by apply startswith_prefix.
    + simpl. rewrite IH. apply startswith_false in Hsw. split.
      * intros Hno [|i]; [done|]. apply Hno.
      * intros Hno i. apply (Hno (S i)).
Qed.

(** A text without any match is returned as it is. *)
Lemma replace_absent old new s :
  old ≠ [] → occurrences old s = 0 → replace old new s = s.
Proof.
  intros Hne Hno. rewrite occurrences_0 in Hno by done.
  rewrite <- (app_nil_r s) at 1. rewrite replace_skip; [|done|].
  - rewrite replace_nil. destruct old; [done|]. by rewrite app_nil_r.
  - intros i _. rewrite app_nil_r. apply Hno.
Qed.

(** *** Texts cut at the first place where a test holds *)

Lemma first_split (f : list A → bool) s :
  (∀ i, i < length s → f (drop i s) = false) ∨
  ∃ a b, s = a ++ b ∧ b ≠ [] ∧ f b = true ∧
         ∀ i, i < length a → f (drop i s) = false.
Proof.
  induction s as [|x s IH].
  - left. simpl. lia.
  - destruct (f (x :: s)) eqn:Hf.
    + right. exists [], (x :: s). repeat split; [done|done|]. simpl. lia.
    + destruct IH as [IH|(a & b & -> & Hb & Hfb & Hno)].
      * left. intros [|i] Hi; [done|]. simpl in *. apply IH. lia.
      * right. exists (x :: a), b. repeat split; try done.
        intros [|i] Hi; [done|]. simpl in *. apply Hno. lia.
Qed.

(** *** The scan, case by case *)

Lemma replace_ind old new (P : list A → list A → Prop) :
  old ≠ [] →
  P [] [] →
  (∀ b r, P b r → P (old ++ b) (new ++ r)) →
  (∀ x s r, ¬ old `prefix_of` x :: s → P s r → P (x :: s) (x :: r)) →
  ∀ s, P s (replace old new s).
Proof.
  intros Hne Hnil Hhit Hmiss s.
  remember (length s) as n eqn:Hn. revert s Hn.
  induction n as [n IH] using lt_wf_ind. intros [|x s] Hn.
  - rewrite replace_nil. by destruct old.
  - destruct (startswith old (x :: s)) eqn:Hsw.
    + apply startswith_prefix in Hsw as [b Hb]. rewrite Hb.
      rewrite replace_hit by done. apply Hhit.
      apply (IH (length b)); [|done]. subst n. rewrite Hb, length_app.
      destruct old; [done|]. simpl. lia.
    + apply startswith_false in Hsw. rewrite replace_miss by done.
      apply Hmiss; [done|]. apply (IH (length s)); [|done]. subst n.
      simpl. lia.
Qed.

Lemma replace_length_le old new s :
  old ≠ [] → length old ≤ length new →
  length s ≤ length (replace old new s).
Proof.
  intros Hne Hlen. apply (replace_ind old new (λ s r, length s ≤ length r));
    [done|done|..].
  - intros b r Hbr. rewrite !length_app. lia.
  - intros x s' r _ Hsr. simpl. lia.
Qed.

Lemma replace_length_lt old new s :
  old ≠ [] → length old < length new → 0 < occurrences old s →
  length s < length (replace old new s).
Proof.
  intros Hne Hlen.
  apply (replace_ind old new
           (λ s r, length s ≤ length r ∧
                   (0 < occurrences old s → length s < length r)));
    [done|..].
  - split; [done|]. simpl. destruct old; [done|]. simpl. lia.
  - intros b r [Hle _]. rewrite !length_app. lia.
  - intros x s' r Hp [Hle Hlt]. simpl. apply startswith_false in Hp.
    rewrite Hp. simpl. split; [lia|]. intros H0. specialize (Hlt H0). lia.
Qed.

Lemma replace_Forall (P : A → Prop) old new s :
  old ≠ [] → Forall P new → Forall P s → Forall P (replace old new s).
Proof.
  intros Hne Hnew.
  apply (replace_ind old new (λ s r, Forall P s → Forall P r)); [done|done|..].
  - intros b r IH Hs. apply Forall_app in Hs as [_ Hb].
    apply Forall_app. auto.
  - intros x s' r _ IH Hs. apply Forall_cons in Hs as [Hx Hs'].
    apply Forall_cons. auto.
Qed.

(** *** Blocks that matches cannot straddle *)

Lemma replace_pass_block old new B a c :
  old ≠ [] → clear_of old B → old ≠ B → occurrences old a = 0 →
  replace old new (a ++ B ++ c) = a ++ B ++ replace old new c.
Proof.
  intros Hne Hcl HB Ha. rewrite occurrences_0 in Ha by done.
  rewrite !(app_assoc a B). apply replace_skip; [done|].
  intros i Hi Hocc. rewrite <- app_assoc in Hocc. rewrite length_app in Hi.
  destruct (Hcl _ _ _ Hocc) as [H1|[H1|[H1 _]]]; [|lia|done].
  apply (Ha i). by apply occ_at_inside in Hocc.
Qed.

Lemma replace_hit_block old new a c :
  old ≠ [] → clear_of old old → occurrences old a = 0 →
  replace old new (a ++ old ++ c) = a ++ new ++ replace old new c.
Proof.
  intros Hne Hcl Ha. rewrite occurrences_0 in Ha by done.
  rewrite replace_skip; [|done|].
  - by rewrite replace_hit.
  - intros i Hi Hocc.
    destruct (Hcl _ _ _ Hocc) as [H1|[H1|[_ H1]]]; [|lia|lia].
    apply (Ha i). by apply occ_at_inside in Hocc.
Qed.

Lemma occurrences_zone t z c :
  t ≠ [] → (∀ i, i < length z → ¬ occ_at t (z ++ c) i) →
  occurrences t (z ++ c) = occurrences t c.
Proof.
  intros Hne. induction z as [|x z IH]; intros Hno; [done|].
  simpl. rewrite IH.
  - assert (startswith t (x :: z ++ c) = false) as ->; [|done].
    apply startswith_false. apply (Hno 0). simpl. lia.
  - intros i Hi. apply (Hno (S i)). simpl. lia.
Qed.

Lemma occurrences_nil t : t ≠ [] → occurrences t [] = 0.
Proof. by destruct t. Qed.

Lemma occurrences_block w B a c :
  w ≠ [] → clear_of w B →
  occurrences w (a ++ B ++ c) =
    occurrences w a + (if decide (w = B) then 1 else 0) + occurrences w c.
Proof.
  intros Hne Hcl. induction a as [|x a IH].
  - rewrite occurrences_nil by done. rewrite app_nil_l.
    destruct B as [|y B].
    + simpl. by rewrite decide_False.
    + change ((y :: B) ++ c) with (y :: (B ++ c)).
      cbn [occurrences]. rewrite occurrences_zone; [|done|].
      * rewrite Nat.add_0_l. f_equal. case_decide as HwB.
        -- rewrite HwB. change (y :: B ++ c) with ((y :: B) ++ c).
           by rewrite startswith_app.
        -- assert (startswith w (y :: B ++ c) = false) as ->; [|done].
           apply startswith_false. intros Hp.
           destruct (Hcl [] c 0 Hp) as [H1|[H1|[H1 _]]]; simpl in *;
             [|lia|done].
           destruct w; [done|]. simpl in *. lia.
      * intros i Hi Hocc.
        destruct (Hcl [] c (S i) Hocc) as [H1|[H1|[_ H1]]]; simpl in *; lia.
  - simpl. rewrite IH.
    assert (startswith w (x :: a ++ B ++ c) = startswith w (x :: a)) as ->;
      [|lia].
    destruct (startswith w (x :: a)) eqn:Hsw.
    + apply startswith_prefix. apply startswith_prefix in Hsw.
      change (x :: a ++ B ++ c) with ((x :: a) ++ B ++ c).
      by apply prefix_app_r.
    + apply startswith_false. apply startswith_false in Hsw.
      intros Hp. apply Hsw.
      destruct (Hcl (x :: a) c 0 Hp) as [H1|[H1|[_ H1]]]; simpl in *;
        [|lia|lia].
      apply (prefix_app_short _ _ (B ++ c)); [done|simpl; lia].
Qed.

(** Every occurrence of [old] in a text cut at its occurrences is replaced. *)
Lemma replace_join old new xs :
  old ≠ [] → clear_of old old → Forall (λ x, occurrences old x = 0) xs →
  replace old new (join old xs) = join new xs.
Proof.
  intros Hne Hcl. induction xs as [|x xs IH]; intros Hxs.
  - simpl. rewrite replace_nil. by destruct old.
  - apply Forall_cons in Hxs as [Hx Hxs]. destruct xs as [|x' xs].
    + simpl. by apply replace_absent.
    + change (join old (x :: x' :: xs)) with (x ++ old ++ join old (x' :: xs)).
      change (join new (x :: x' :: xs)) with (x ++ new ++ join new (x' :: xs)).
      rewrite replace_hit_block by done. by rewrite IH.
Qed.

Lemma occurrences_join old xs :
  old ≠ [] → clear_of old old → Forall (λ x, occurrences old x = 0) xs →
  occurrences old (join old xs) = pred (length xs).
Proof.
  intros Hne Hcl. induction xs as [|x xs IH]; intros Hxs.
  - by apply occurrences_nil.
  - apply Forall_cons in Hxs as [Hx Hxs]. destruct xs as [|x' xs]; [done|].
    change (join old (x :: x' :: xs)) with (x ++ old ++ join old (x' :: xs)).
    rewrite occurrences_block by done. rewrite decide_True by done.
    rewrite IH by done. simpl. lia.
Qed.

(** *** Induction on a text cut at the leftmost placeholder *)

Lemma targets_ind (ts : list (list A)) (P : list A → Prop) :
  Forall (λ t, t ≠ []) ts →
  (∀ s, Forall (λ t, occurrences t s = 0) ts → P s) →
  (∀ t a b, t ∈ ts → Forall (λ t', occurrences t' a = 0) ts →
            P b → P (a ++ t ++ b)) →
  ∀ s, P s.
Proof.
  intros Hne Hfree Hsite s.
  remember (length s) as n eqn:Hn. revert s Hn.
  induction n as [n IH] using lt_wf_ind. intros s Hn.
  destruct (first_split (λ b, bool_decide (Exists (λ t, t `prefix_of` b) ts)) s)
    as [Hno|(a & b & -> & Hb & Hfb & Hno)].
  - apply Hfree. apply Forall_forall. intros t Ht.
    rewrite Forall_forall in Hne. apply occurrences_0; [by apply Hne|].
    intros i Hi. pose proof (occ_at_bound _ _ _ (Hne _ Ht) Hi) as Hlt.
    assert (i < length s) as Hlt'.
    { specialize (Hne _ Ht). destruct t; [done|]. simpl in Hlt. lia. }
    specialize (Hno i Hlt'). apply bool_decide_eq_false in Hno.
    apply Hno. apply Exists_exists. by exists t.
  - apply bool_decide_eq_true in Hfb.
    apply Exists_exists in Hfb as (t & Ht & [b' ->]).
    rewrite Forall_forall in Hne.
    apply Hsite; [done| |].
    + apply Forall_forall. intros t' Ht'.
      apply occurrences_0; [by apply Hne|]. intros i Hi.
      pose proof (occ_at_bound _ _ _ (Hne _ Ht') Hi) as Hlt.
      assert (i < length a) as Hlt'.
      { specialize (Hne _ Ht'). destruct t'; [done|]. simpl in Hlt. lia. }
      specialize (Hno i Hlt'). apply bool_decide_eq_false in Hno.
      apply Hno. apply Exists_exists. exists t'. split; [done|].
      by apply occ_at_app_l; [apply Hne|].
    + apply (IH (length b')); [|done]. subst n. rewrite !length_app.
      specialize (Hne _ Ht). destruct t; [done|]. simpl. lia.
Qed.

End scan.

(** ** Words framed by a marker character

    Both placeholders and both replacement strings have the shape
    [X ' Y '] with no apostrophe inside [X] or [Y].  Two occurrences of such
    words in one text can only overlap when their apostrophes coincide. *)

Section framed.
Context {A : Type} `{EqDecision A}.
Variable q : A.
Implicit Types (X Y s : list A) (i k : nat).

Lemma frame_length X Y : length (frame q X Y) = length X + length Y + 2.
Proof. unfold frame. rewrite length_app. simpl. rewrite length_app. simpl. lia. Qed.

Lemma frame_nonempty X Y : frame q X Y ≠ [].
Proof. unfold frame. by destruct X. Qed.

Lemma frame_lookup_X X Y k x : X !! k = Some x → frame q X Y !! k = Some x.
Proof. apply lookup_app_l_Some. Qed.

Lemma frame_lookup_open X Y : frame q X Y !! length X = Some q.
Proof. by apply list_lookup_middle. Qed.

Lemma frame_lookup_Y X Y k x :
  Y !! k = Some x → frame q X Y !! (length X + 1 + k) = Some x.
Proof.
  intros Hk. unfold frame. rewrite lookup_app_r by lia.
  replace (length X + 1 + k - length X) with (S k) by lia. simpl.
  by apply lookup_app_l_Some.
Qed.

Lemma frame_lookup_close X Y : frame q X Y !! (length X + 1 + length Y) = Some q.
Proof.
  unfold frame. rewrite lookup_app_r by lia.
  replace (length X + 1 + length Y - length X) with (S (length Y)) by lia.
  simpl. by apply list_lookup_middle.
Qed.

(** Where the marker sits, and where it does not, inside an occurrence. *)
Lemma frame_marks X Y s i :
  q ∉ X → q ∉ Y → occ_at (frame q X Y) s i →
  s !! (i + length X) = Some q ∧
  s !! (i + length X + 1 + length Y) = Some q ∧
  (∀ k, i ≤ k < i + length X → s !! k ≠ Some q) ∧
  (∀ k, i + length X < k < i + length X + 1 + length Y → s !! k ≠ Some q).
Proof.
  intros HX HY Hocc. repeat split.
  - apply (occ_at_lookup _ _ _ _ _ Hocc), frame_lookup_open.
  - rewrite <- !Nat.add_assoc.
    apply (occ_at_lookup _ _ _ _ _ Hocc). rewrite Nat.add_assoc.
    apply frame_lookup_close.
  - intros k Hk Hq.
    destruct (lookup_lt_is_Some_2 X (k - i)) as [x Hx]; [lia|].
    pose proof (occ_at_lookup _ _ _ _ _ Hocc (frame_lookup_X _ Y _ _ Hx)) as Hs.
    replace (i + (k - i)) with k in Hs by lia.
    assert (x = q) as -> by congruence.
    apply HX. by eapply list_elem_of_lookup_2.
  - intros k Hk Hq.
    destruct (lookup_lt_is_Some_2 Y (k - (i + length X + 1))) as [x Hx]; [lia|].
    pose proof (occ_at_lookup _ _ _ _ _ Hocc (frame_lookup_Y X _ _ _ Hx)) as Hs.
    replace (i + (length X + 1 + (k - (i + length X + 1)))) with k in Hs by lia.
    assert (x = q) as -> by congruence.
    apply HY. by eapply list_elem_of_lookup_2.
Qed.

(** Two stretches of one text that start at the same offset and have the
    same length are equal. *)
Lemma same_stretch s (u v : list A) i :
  (∀ k x, u !! k = Some x → s !! (i + k) = Some x) →
  (∀ k x, v !! k = Some x → s !! (i + k) = Some x) →
  length u = length v → u = v.
Proof.
  intros Hu Hv Hlen. apply (list_eq_same_length _ _ (length v)); [done..|].
  intros k x y _ Hx Hy. apply Hu in Hx. apply Hv in Hy. congruence.
Qed.

(** Overlapping occurrences of framed words share an apostrophe. *)
Lemma frame_overlap X Y X' Y' s i i' :
  q ∉ X → q ∉ Y → q ∉ X' → q ∉ Y' →
  occ_at (frame q X Y) s i → occ_at (frame q X' Y') s i' →
  i < i' + length (frame q X' Y') → i' < i + length (frame q X Y) →
  (i + length X = i' + length X' ∧ Y = Y') ∨
  i + length X + 1 + length Y = i' + length X' ∨
  i' + length X' + 1 + length Y' = i + length X.
Proof.
  intros HX HY HX' HY' Hocc Hocc'. rewrite !frame_length. intros Hlt Hlt'.
  destruct (frame_marks _ _ _ _ HX HY Hocc) as (Ha & Hb & Hpre & Hmid).
  destruct (frame_marks _ _ _ _ HX' HY' Hocc') as (Ha' & Hb' & Hpre' & Hmid').
  destruct (decide (i + length X + 1 + length Y = i' + length X'));
    [by auto|].
  destruct (decide (i' + length X' + 1 + length Y' = i + length X));
    [by auto|].
  left.
  assert (i + length X = i' + length X') as Heq.
  { destruct (decide (i + length X = i' + length X')) as [|Hne]; [done|].
    exfalso.
    destruct (decide (i ≤ i' + length X')) as [Hi|Hi].
    - destruct (decide (i' + length X' < i + length X)).
      { apply (Hpre (i' + length X')); [lia|done]. }
      destruct (decide (i' + length X' < i + length X + 1 + length Y)).
      { apply (Hmid (i' + length X')); [lia|done]. }
      apply (Hpre' (i + length X + 1 + length Y)); [lia|done].
    - destruct (decide (i + length X < i' + length X' + 1 + length Y')).
      { apply (Hmid' (i + length X)); [lia|done]. }
      apply (Hpre (i' + length X' + 1 + length Y')); [lia|done]. }
  split; [done|].
  assert (length Y = length Y') as Hlen.
  { destruct (decide (length Y = length Y')) as [|Hne]; [done|]. exfalso.
    destruct (decide (length Y < length Y')).
    - apply (Hmid' (i + length X + 1 + length Y)); [lia|done].
    - apply (Hmid (i' + length X' + 1 + length Y')); [lia|done]. }
  apply (same_stretch s _ _ (i + length X + 1)); [| |done].
  - intros k x Hk. rewrite <- !Nat.add_assoc.
    apply (occ_at_lookup _ _ _ _ _ Hocc). rewrite Nat.add_assoc.
    by apply frame_lookup_Y.
  - intros k x Hk. rewrite Heq. rewrite <- !Nat.add_assoc.
    apply (occ_at_lookup _ _ _ _ _ Hocc'). rewrite Nat.add_assoc.
    by apply frame_lookup_Y.
Qed.

(** Offsets that end the one stretch and the other at the same place make
    the shorter stretch a suffix of the longer. *)
Lemma aligned_suffix X X' s i i' :
  (∀ k x, X !! k = Some x → s !! (i + k) = Some x) →
  (∀ k x, X' !! k = Some x → s !! (i' + k) = Some x) →
  i + length X = i' + length X' → length X ≤ length X' →
  X `suffix_of` X'.
Proof.
  intros HX HX' Heq Hlen. exists (take (length X' - length X) X').
  rewrite <- (take_drop (length X' - length X) X') at 1. f_equal.
  symmetry. apply (same_stretch s _ _ i); [done| |].
  - intros k x Hk. rewrite lookup_drop in Hk. apply HX' in Hk.
    replace (i + k) with (i' + (length X' - length X + k)) by lia. done.
  - rewrite length_drop. lia.
Qed.

(** The words of a family whose [X] parts all end in [x] and whose [Y]
    parts all end in another character [y] keep clear of each other as
    soon as no [X] part is a proper suffix of another. *)
Lemma frame_clear X Y X' Y' x y :
  q ∉ X → q ∉ Y → q ∉ X' → q ∉ Y' →
  last X = Some x → last X' = Some x →
  last Y = Some y → last Y' = Some y → x ≠ y →
  (X `suffix_of` X' → X = X') → (X' `suffix_of` X → X = X') →
  clear_of (frame q X Y) (frame q X' Y').
Proof.
  intros HX HY HX' HY' Hl Hl' HlY HlY' Hxy Hsuf Hsuf' a c i Hocc.
  pose proof (occ_at_here (frame q X' Y') a c) as Hocc'.
  destruct (decide (i + length (frame q X Y) ≤ length a)); [by left|].
  destruct (decide (length a + length (frame q X' Y') ≤ i)); [by right; left|].
  right; right.
  rewrite last_lookup in Hl, Hl', HlY, HlY'.
  pose proof (lookup_lt_Some _ _ _ Hl). pose proof (lookup_lt_Some _ _ _ Hl').
  pose proof (lookup_lt_Some _ _ _ HlY). pose proof (lookup_lt_Some _ _ _ HlY').
  destruct (frame_overlap _ _ _ _ _ _ _ HX HY HX' HY' Hocc Hocc')
    as [[Heq ->]|[Heq|Heq]]; [lia|lia|..].
  - assert (X = X') as ->; [|split; [done|lia]].
    destruct (decide (length X ≤ length X')).
    + apply Hsuf, (aligned_suffix _ _ (a ++ frame q X' Y' ++ c) i (length a));
        [| |done..].
      * intros k z Hk. apply (occ_at_lookup _ _ _ _ _ Hocc).
        by apply frame_lookup_X.
      * intros k z Hk. apply (occ_at_lookup _ _ _ _ _ Hocc').
        by apply frame_lookup_X.
    + apply Hsuf', (aligned_suffix _ _ (a ++ frame q X' Y' ++ c) (length a) i);
        [| |lia..].
      * intros k z Hk. apply (occ_at_lookup _ _ _ _ _ Hocc').
        by apply frame_lookup_X.
      * intros k z Hk. apply (occ_at_lookup _ _ _ _ _ Hocc).
        by apply frame_lookup_X.
  - exfalso. apply Hxy.
    pose proof (occ_at_lookup _ _ _ _ _ Hocc (frame_lookup_Y X _ _ _ HlY)) as Hp1.
    pose proof (occ_at_lookup _ _ _ _ _ Hocc' (frame_lookup_X _ Y' _ _ Hl')) as Hp2.
    replace (i + (length X + 1 + pred (length Y)))
      with (length a + pred (length X')) in Hp1 by lia.
    congruence.
  - exfalso. apply Hxy.
    pose proof (occ_at_lookup _ _ _ _ _ Hocc' (frame_lookup_Y X' _ _ _ HlY')) as Hp1.
    pose proof (occ_at_lookup _ _ _ _ _ Hocc (frame_lookup_X _ Y _ _ Hl)) as Hp2.
    replace (length a + (length X' + 1 + pred (length Y')))
      with (i + pred (length X)) in Hp1 by lia.
    congruence.
Qed.

End framed.

(** ** Two placeholders replaced one after the other

  The four words (two placeholders [t1], [t2] and their replacements [r1],
  [r2]) are only assumed to keep clear of each other. *)

Section two_targets.
Context {A : Type} `{EqDecision A}.
Variables t1 t2 r1 r2 : list A.
Implicit Types (s a b : list A).

Hypothesis words_clear :
  ∀ w B, w ∈ [t1; t2; r1; r2] → B ∈ [t1; t2; r1; r2] → clear_of w B.
Hypothesis words_nonempty : Forall (λ w, w ≠ []) [t1; t2; r1; r2].
Hypothesis words_distinct : NoDup [t1; t2; r1; r2].

Local Abbreviation sub12 := (subst12 t1 t2 r1 r2).
Local Abbreviation sub21 := (subst21 t1 t2 r1 r2).

Local Ltac word_in := rewrite !elem_of_cons; tauto.

Local Lemma t1_nonempty : t1 ≠ [].
Proof.
  pose proof words_nonempty as Hw. rewrite Forall_forall in Hw.
  apply Hw. word_in.
Qed.

Local Lemma t2_nonempty : t2 ≠ [].
Proof.
  pose proof words_nonempty as Hw. rewrite Forall_forall in Hw.
  apply Hw. word_in.
Qed.

Local Lemma r1_nonempty : r1 ≠ [].
Proof.
  pose proof words_nonempty as Hw. rewrite Forall_forall in Hw.
  apply Hw. word_in.
Qed.

Local Lemma r2_nonempty : r2 ≠ [].
Proof.
  pose proof words_nonempty as Hw. rewrite Forall_forall in Hw.
  apply Hw. word_in.
Qed.

Local Lemma words_apart :
  t1 ≠ t2 ∧ t1 ≠ r1 ∧ t1 ≠ r2 ∧ t2 ≠ r1 ∧ t2 ≠ r2 ∧ r1 ≠ r2.
Proof.
  pose proof words_distinct as Hd.
  rewrite !NoDup_cons, !not_elem_of_cons in Hd. tauto.
Qed.

Lemma targets_nonempty : Forall (λ t : list A, t ≠ []) [t1; t2].
Proof. repeat constructor; [apply t1_nonempty | apply t2_nonempty]. Qed.

Lemma subst12_free s :
  occurrences t1 s = 0 → occurrences t2 s = 0 → sub12 s = s.
Proof.
  intros H1 H2. unfold subst12.
  rewrite (replace_absent t1) by (apply t1_nonempty || done).
  by rewrite replace_absent by (apply t2_nonempty || done).
Qed.

Lemma subst21_free s :
  occurrences t1 s = 0 → occurrences t2 s = 0 → sub21 s = s.
Proof.
  intros H1 H2. unfold subst21.
  rewrite (replace_absent t2) by (apply t2_nonempty || done).
  by rewrite replace_absent by (apply t1_nonempty || done).
Qed.

Lemma subst12_site1 a b :
  occurrences t1 a = 0 → occurrences t2 a = 0 →
  sub12 (a ++ t1 ++ b) = a ++ r1 ++ sub12 b.
Proof.
  intros H1 H2. unfold subst12. destruct words_apart as (?&?&?&?&?&?).
  rewrite replace_hit_block; [|apply t1_nonempty|apply words_clear; word_in|done].
  rewrite replace_pass_block; [done|apply t2_nonempty|apply words_clear; word_in|done..].
Qed.

Lemma subst12_site2 a b :
  occurrences t1 a = 0 → occurrences t2 a = 0 →
  sub12 (a ++ t2 ++ b) = a ++ r2 ++ sub12 b.
Proof.
  intros H1 H2. unfold subst12. destruct words_apart as (?&?&?&?&?&?).
  rewrite replace_pass_block; [|apply t1_nonempty|apply words_clear; word_in|done..].
  rewrite replace_hit_block; [done|apply t2_nonempty|apply words_clear; word_in|done].
Qed.

Lemma subst21_site1 a b :
  occurrences t1 a = 0 → occurrences t2 a = 0 →
  sub21 (a ++ t1 ++ b) = a ++ r1 ++ sub21 b.
Proof.
  intros H1 H2. unfold subst21. destruct words_apart as (?&?&?&?&?&?).
  rewrite replace_pass_block; [|apply t2_nonempty|apply words_clear; word_in|done..].
  rewrite replace_hit_block; [done|apply t1_nonempty|apply words_clear; word_in|done].
Qed.

Lemma subst21_site2 a b :
  occurrences t1 a = 0 → occurrences t2 a = 0 →
  sub21 (a ++ t2 ++ b) = a ++ r2 ++ sub21 b.
Proof.
  intros H1 H2. unfold subst21. destruct words_apart as (?&?&?&?&?&?).
  rewrite replace_hit_block; [|apply t2_nonempty|apply words_clear; word_in|done].
  rewrite replace_pass_block; [done|apply t1_nonempty|apply words_clear; word_in|done..].
Qed.

(** Cases of [targets_ind] for the two placeholders. *)
Lemma two_targets_ind (P : list A → Prop) :
  (∀ s, occurrences t1 s = 0 → occurrences t2 s = 0 → P s) →
  (∀ a b, occurrences t1 a = 0 → occurrences t2 a = 0 →
          P b → P (a ++ t1 ++ b)) →
  (∀ a b, occurrences t1 a = 0 → occurrences t2 a = 0 →
          P b → P (a ++ t2 ++ b)) →
  ∀ s, P s.
Proof.
  intros Hfree Hs1 Hs2. apply (targets_ind [t1; t2]).
  - apply targets_nonempty.
  - intros s Hs. rewrite !Forall_cons in Hs. destruct Hs as (? & ? & _). auto.
  - intros t a b Ht Ha Hb. rewrite !Forall_cons in Ha.
    rewrite !elem_of_cons, elem_of_nil in Ht.
    destruct Ha as (? & ? & _).
    destruct Ht as [->|[->|[]]]; auto.
Qed.

Theorem subst_commute s : sub12 s = sub21 s.
Proof.
  induction s as [s H1 H2|a b H1 H2 IH|a b H1 H2 IH] using two_targets_ind.
  - by rewrite subst12_free, subst21_free.
  - by rewrite subst12_site1, subst21_site1, IH.
  - by rewrite subst12_site2, subst21_site2, IH.
Qed.

(** A replacement neither adds nor removes a match site of a word that
    keeps clear of the placeholder and of what replaces it. *)
Lemma occurrences_replace_other w old new s :
  w ≠ [] → old ≠ [] → w ≠ old → w ≠ new →
  clear_of w old → clear_of w new → clear_of old old →
  occurrences w (replace old new s) = occurrences w s.
Proof.
  intros Hw Hold Hwo Hwn Hc1 Hc2 Hc3. revert s.
  apply (targets_ind [old]).
  - by repeat constructor.
  - intros s Hs. apply Forall_cons in Hs as [Hs _]. by rewrite replace_absent.
  - intros t a b Ht Ha IH.
    apply Forall_cons in Ha as [Ha _]. apply list_elem_of_singleton in Ht as ->.
    rewrite replace_hit_block by done.
    rewrite !occurrences_block by done.
    rewrite !decide_False by done. by rewrite IH.
Qed.

Lemma occurrences_t2_after_t1 s :
  occurrences t2 (replace t1 r1 s) = occurrences t2 s.
Proof.
  destruct words_apart as (?&?&?&?&?&?).
  apply occurrences_replace_other;
    [apply t2_nonempty|apply t1_nonempty|done|done|apply words_clear; word_in..].
Qed.

Lemma occurrences_t1_after_t2 s :
  occurrences t1 (replace t2 r2 s) = occurrences t1 s.
Proof.
  destruct words_apart as (?&?&?&?&?&?).
  apply occurrences_replace_other;
    [apply t1_nonempty|apply t2_nonempty|done|done|apply words_clear; word_in..].
Qed.

(** What is left of the placeholders, and how many replacement strings the
    result holds. *)
Lemma subst12_occurrences s :
  occurrences t1 (sub12 s) = 0 ∧
  occurrences t2 (sub12 s) = 0 ∧
  occurrences r1 (sub12 s) = occurrences r1 s + occurrences t1 s ∧
  occurrences r2 (sub12 s) = occurrences r2 s + occurrences t2 s.
Proof.
  destruct words_apart as (?&?&?&?&?&?).
  pose proof t1_nonempty. pose proof t2_nonempty. pose proof r1_nonempty. pose proof r2_nonempty.
  induction s as [s Hs1 Hs2|a b Hs1 Hs2 IH|a b Hs1 Hs2 IH] using two_targets_ind.
  - rewrite subst12_free by done. lia.
  - destruct IH as (IH1 & IH2 & IH3 & IH4).
    rewrite subst12_site1 by done.
    rewrite !occurrences_block by (done || apply words_clear; word_in).
    repeat case_decide; try congruence; lia.
  - destruct IH as (IH1 & IH2 & IH3 & IH4).
    rewrite subst12_site2 by done.
    rewrite !occurrences_block by (done || apply words_clear; word_in).
    repeat case_decide; try congruence; lia.
Qed.

Theorem subst12_idempotent s : sub12 (sub12 s) = sub12 s.
Proof.
  destruct (subst12_occurrences s) as (H1 & H2 & _).
  by apply subst12_free.
Qed.

End two_targets.

(** ** The four words of the script as framed words *)

Lemma target_mask_frame : target_mask = frame apostrophe X_mask Y_target.
Proof. reflexivity. Qed.

Lemma target_webkit_frame : target_webkit = frame apostrophe X_webkit Y_target.
Proof. reflexivity. Qed.

Lemma replacement_mask_frame uri :
  replacement_mask uri = frame apostrophe X_mask (Y_uri uri).
Proof.
  unfold replacement_mask, frame, Y_uri. cbn.
  by rewrite <- !app_assoc.
Qed.

Lemma replacement_webkit_frame uri :
  replacement_webkit uri = frame apostrophe X_webkit (Y_uri uri).
Proof.
  unfold replacement_webkit, frame, Y_uri. cbn.
  by rewrite <- !app_assoc.
Qed.

(** Closed decidable facts about the literals are settled by evaluation. *)
Ltac by_evaluation := apply (bool_decide_unpack _); vm_compute; exact I.

Lemma X_free X : X ∈ [X_mask; X_webkit] → (apostrophe ∉ X) ∧ last X = Some 32%N.
Proof.
  rewrite !elem_of_cons, elem_of_nil.
  intros [->|[->|[]]]; (split; [by_evaluation | reflexivity]).
Qed.

Lemma X_suffix X X' :
  X ∈ [X_mask; X_webkit] → X' ∈ [X_mask; X_webkit] → X `suffix_of` X' → X = X'.
Proof.
  rewrite !elem_of_cons, !elem_of_nil.
  intros [->|[->|[]]] [->|[->|[]]]; try done;
    intros Hs; exfalso; revert Hs; by_evaluation.
Qed.

Lemma Y_target_free : (apostrophe ∉ Y_target) ∧ last Y_target = Some 41%N.
Proof. split; [by_evaluation | reflexivity]. Qed.

Lemma Y_uri_free b64 :
  apostrophe ∉ b64 →
  (apostrophe ∉ Y_uri (data_uri b64)) ∧
  last (Y_uri (data_uri b64)) = Some 41%N.
Proof.
  intros Hp. split.
  - unfold Y_uri, data_uri.
    rewrite !not_elem_of_app, !not_elem_of_cons, !not_elem_of_app.
    repeat split; try done; by_evaluation.
  - unfold Y_uri.
    change (dquote :: lit ")") with ([dquote] ++ [41%N]).
    change (dquote :: data_uri b64 ++ [dquote] ++ [41%N])
      with ([dquote] ++ data_uri b64 ++ [dquote] ++ [41%N]).
    rewrite !app_assoc. apply last_snoc.
Qed.

Lemma new_content_subst12 uri s :
  new_content uri s =
  subst12 target_mask target_webkit (replacement_mask uri) (replacement_webkit uri) s.
Proof. reflexivity. Qed.

Lemma new_content_swapped_subst21 uri s :
  new_content_swapped uri s =
  subst21 target_mask target_webkit (replacement_mask uri) (replacement_webkit uri) s.
Proof. reflexivity. Qed.

Section payload.
Variable b64 : str.
Hypothesis b64_free : apostrophe ∉ b64.

Lemma words_framed w :
  w ∈ script_words b64 →
  ∃ X Y, w = frame apostrophe X Y ∧ X ∈ [X_mask; X_webkit] ∧
         (apostrophe ∉ Y) ∧ last Y = Some 41%N.
Proof.
  unfold script_words. rewrite !elem_of_cons, elem_of_nil.
  pose proof Y_target_free as [? ?].
  pose proof (Y_uri_free b64 b64_free) as [? ?].
  intros [->|[->|[->|[->|[]]]]].
  - exists X_mask, Y_target. rewrite !elem_of_cons. auto using target_mask_frame.
  - exists X_webkit, Y_target. rewrite !elem_of_cons. auto using target_webkit_frame.
  - exists X_mask, (Y_uri (data_uri b64)). rewrite !elem_of_cons.
    auto using replacement_mask_frame.
  - exists X_webkit, (Y_uri (data_uri b64)). rewrite !elem_of_cons.
    auto using replacement_webkit_frame.
Qed.

Lemma script_words_clear w B :
  w ∈ script_words b64 → B ∈ script_words b64 → clear_of w B.
Proof.
  intros (X & Y & -> & HX & HY & HlY)%words_framed
         (X' & Y' & -> & HX' & HY' & HlY')%words_framed.
  destruct (X_free _ HX) as [? ?]. destruct (X_free _ HX') as [? ?].
  apply (frame_clear apostrophe X Y X' Y' 32%N 41%N); try done.
  - by apply X_suffix.
  - intros Hs. symmetry. by apply X_suffix.
Qed.

Lemma script_words_nonempty : Forall (λ w : str, w ≠ []) (script_words b64).
Proof.
  apply Forall_forall. intros w (X & Y & -> & _)%words_framed.
  apply frame_nonempty.
Qed.

Lemma script_words_distinct : NoDup (script_words b64).
Proof.
  unfold script_words. rewrite !NoDup_cons, !not_elem_of_cons.
  repeat split; try apply not_elem_of_nil; try apply NoDup_nil_2;
    intros Heq; apply (f_equal (take 24)) in Heq; vm_compute in Heq;
    discriminate.
Qed.

Lemma new_content_swap s :
  new_content (data_uri b64) s = new_content_swapped (data_uri b64) s.
Proof.
  rewrite new_content_subst12, new_content_swapped_subst21.
  apply subst_commute;
    [apply script_words_clear|apply script_words_nonempty
    |apply script_words_distinct].
Qed.

Lemma new_content_counts s :
  occurrences target_mask (new_content (data_uri b64) s) = 0 ∧
  occurrences target_webkit (new_content (data_uri b64) s) = 0 ∧
  occurrences (replacement_mask (data_uri b64)) (new_content (data_uri b64) s) =
    occurrences (replacement_mask (data_uri b64)) s + occurrences target_mask s ∧
  occurrences (replacement_webkit (data_uri b64)) (new_content (data_uri b64) s) =
    occurrences (replacement_webkit (data_uri b64)) s + occurrences target_webkit s.
Proof.
  rewrite new_content_subst12.
  apply subst12_occurrences;
    [apply script_words_clear|apply script_words_nonempty
    |apply script_words_distinct].
Qed.

Lemma new_content_twice s :
  new_content (data_uri b64) (new_content (data_uri b64) s) =
  new_content (data_uri b64) s.
Proof.
  rewrite !new_content_subst12.
  apply subst12_idempotent;
    [apply script_words_clear|apply script_words_nonempty
    |apply script_words_distinct].
Qed.

Lemma new_content_site_mask a b :
  occurrences target_mask a = 0 → occurrences target_webkit a = 0 →
  new_content (data_uri b64) (a ++ target_mask ++ b) =
  a ++ replacement_mask (data_uri b64) ++ new_content (data_uri b64) b.
Proof.
  rewrite !new_content_subst12.
  apply subst12_site1;
    [apply script_words_clear|apply script_words_nonempty
    |apply script_words_distinct].
Qed.

Lemma new_content_site_webkit a b :
  occurrences target_mask a = 0 → occurrences target_webkit a = 0 →
  new_content (data_uri b64) (a ++ target_webkit ++ b) =
  a ++ replacement_webkit (data_uri b64) ++ new_content (data_uri b64) b.
Proof.
  rewrite !new_content_subst12.
  apply subst12_site2;
    [apply script_words_clear|apply script_words_nonempty
    |apply script_words_distinct].
Qed.

Lemma webkit_sites_kept s :
  occurrences target_webkit
    (replace target_mask (replacement_mask (data_uri b64)) s) =
  occurrences target_webkit s.
Proof.
  apply (occurrences_t2_after_t1 _ _ _ (replacement_webkit (data_uri b64)));
    [apply script_words_clear|apply script_words_nonempty
    |apply script_words_distinct].
Qed.

Lemma mask_sites_kept s :
  occurrences target_mask
    (replace target_webkit (replacement_webkit (data_uri b64)) s) =
  occurrences target_mask s.
Proof.
  apply (occurrences_t1_after_t2 _ _ (replacement_mask (data_uri b64)));
    [apply script_words_clear|apply script_words_nonempty
    |apply script_words_distinct].
Qed.

End payload.

(** Base64 text holds no apostrophe, so the facts of section [payload] hold
    for every base64 payload. *)
Lemma base64_no_apostrophe b64 :
  Forall (λ ch, base64_char ch = true) b64 → apostrophe ∉ b64.
Proof.
  intros Hb Hin. rewrite Forall_forall in Hb. by apply Hb in Hin.
Qed.

(** *** Facts that hold for every payload *)

Lemma target_mask_nonempty : target_mask ≠ [].
Proof. done. Qed.

Lemma target_webkit_nonempty : target_webkit ≠ [].
Proof. done. Qed.

Lemma target_rigid X :
  X ∈ [X_mask; X_webkit] →
  clear_of (frame apostrophe X Y_target) (frame apostrophe X Y_target).
Proof.
  intros HX. destruct (X_free _ HX) as [? ?]. destruct Y_target_free as [? ?].
  by apply (frame_clear apostrophe X Y_target X Y_target 32%N 41%N).
Qed.

Lemma target_mask_rigid : clear_of target_mask target_mask.
Proof. apply (target_rigid X_mask). rewrite !elem_of_cons. tauto. Qed.

Lemma target_webkit_rigid : clear_of target_webkit target_webkit.
Proof. apply (target_rigid X_webkit). rewrite !elem_of_cons. tauto. Qed.

Lemma new_content_absent uri s :
  occurrences target_mask s = 0 → occurrences target_webkit s = 0 →
  new_content uri s = s.
Proof.
  intros H1 H2. unfold new_content.
  rewrite (replace_absent target_mask) by done.
  by apply replace_absent.
Qed.

Lemma replacement_mask_length b64 :
  length (replacement_mask (data_uri b64)) = length target_mask + 1 + length b64.
Proof.
  unfold replacement_mask, data_uri. rewrite !length_app. simpl.
  rewrite !length_app. simpl. lia.
Qed.

Lemma replacement_webkit_length b64 :
  length (replacement_webkit (data_uri b64)) =
  length target_webkit + 1 + length b64.
Proof.
  unfold replacement_webkit, data_uri. rewrite !length_app. simpl.
  rewrite !length_app. simpl. lia.
Qed.

(** A replacement string is longer than its placeholder, so a text that holds
    a placeholder grows. *)
Lemma new_content_longer b64 s :
  0 < occurrences target_mask s ∨ 0 < occurrences target_webkit s →
  length s < length (new_content (data_uri b64) s).
Proof.
  intros Hocc. unfold new_content.
  pose proof (replacement_mask_length b64) as Hm.
  pose proof (replacement_webkit_length b64) as Hw.
  pose proof (replace_length_le target_mask (replacement_mask (data_uri b64)) s
                target_mask_nonempty ltac:(lia)) as Hle1.
  destruct (decide (0 < occurrences target_mask s)) as [H1|H1].
  - pose proof (replace_length_lt target_mask (replacement_mask (data_uri b64)) s
                  target_mask_nonempty ltac:(lia) H1) as Hlt.
    pose proof (replace_length_le target_webkit
                  (replacement_webkit (data_uri b64))
                  (replace target_mask (replacement_mask (data_uri b64)) s)
                  target_webkit_nonempty ltac:(lia)).
    lia.
  - destruct Hocc as [?|H2]; [done|].
    rewrite (replace_absent target_mask) by (done || lia).
    apply replace_length_lt; [done|lia|done].
Qed.

(** ** Stripping and newline translation *)

Lemma lstrip_split s :
  ∃ l, s = l ++ lstrip s ∧ Forall (λ ch, isspace ch = true) l.
Proof.
  induction s as [|ch s (l & Hl & Hsp)]; [by exists []|].
  cbn [lstrip]. destruct (isspace ch) eqn:Hch.
  - exists (ch :: l). split; [by rewrite Hl at 1|by constructor].
  - by exists [].
Qed.

Lemma lstrip_head s ch : head (lstrip s) = Some ch → isspace ch = false.
Proof.
  induction s as [|ch' s IH]; [done|]. cbn [lstrip].
  destruct (isspace ch') eqn:Hch; [done|]. simpl. congruence.
Qed.

Lemma rstrip_split s :
  ∃ r, s = rstrip s ++ r ∧ Forall (λ ch, isspace ch = true) r.
Proof.
  destruct (lstrip_split (reverse s)) as (l & Hl & Hsp).
  exists (reverse l). split.
  - unfold rstrip. rewrite <- reverse_app, <- Hl. by rewrite reverse_involutive.
  - by apply Forall_reverse.
Qed.

Lemma rstrip_last s ch : last (rstrip s) = Some ch → isspace ch = false.
Proof. unfold rstrip. rewrite last_reverse. apply lstrip_head. Qed.

Lemma strip_split s :
  ∃ l r, s = l ++ strip s ++ r ∧
         Forall (λ ch, isspace ch = true) l ∧ Forall (λ ch, isspace ch = true) r.
Proof.
  destruct (lstrip_split s) as (l & Hl & Hsl).
  destruct (rstrip_split (lstrip s)) as (r & Hr & Hsr).
  exists l, r. unfold strip. by rewrite <- Hr.
Qed.

Lemma strip_ends s ch :
  head (strip s) = Some ch ∨ last (strip s) = Some ch → isspace ch = false.
Proof.
  intros [Hh|Hl]; [|by apply rstrip_last in Hl].
  destruct (rstrip_split (lstrip s)) as (r & Hr & _).
  apply (lstrip_head s). rewrite Hr. fold (strip s).
  destruct (strip s); [done|]. done.
Qed.

Lemma strip_Forall (P : N → Prop) s : Forall P s → Forall P (strip s).
Proof.
  destruct (strip_split s) as (l & r & Hs & _). rewrite Hs at 1.
  rewrite !Forall_app. tauto.
Qed.

Lemma universal_newlines_CR_LF s :
  universal_newlines (CR :: LF :: s) = LF :: universal_newlines s.
Proof. reflexivity. Qed.

Lemma universal_newlines_CR ch s :
  ch ≠ LF →
  universal_newlines (CR :: ch :: s) = LF :: universal_newlines (ch :: s).
Proof.
  intros Hch. simpl. by destruct (N.eqb_spec ch LF).
Qed.

Lemma universal_newlines_other ch s :
  ch ≠ CR → universal_newlines (ch :: s) = ch :: universal_newlines s.
Proof.
  intros Hch. simpl. by destruct (N.eqb_spec ch CR).
Qed.

Lemma universal_newlines_no_CR s : Forall (λ ch, ch ≠ CR) (universal_newlines s).
Proof.
  remember (length s) as n eqn:Hn. revert s Hn.
  induction n as [n IH] using lt_wf_ind. intros [|ch s] Hn; [constructor|].
  destruct (decide (ch = CR)) as [->|Hch].
  - destruct s as [|ch' s']; [by repeat constructor|].
    destruct (decide (ch' = LF)) as [->|Hch'].
    + rewrite universal_newlines_CR_LF. constructor; [done|].
      apply (IH (length s')); [|done]. subst n. simpl. lia.
    + rewrite universal_newlines_CR by done. constructor; [done|].
      apply (IH (length (ch' :: s'))); [|done]. subst n. simpl. lia.
  - rewrite universal_newlines_other by done. constructor; [done|].
    apply (IH (length s)); [|done]. subst n. simpl. lia.
Qed.

Lemma universal_newlines_id s :
  Forall (λ ch, ch ≠ CR) s → universal_newlines s = s.
Proof.
  induction 1 as [|ch s Hch _ IH]; [done|].
  rewrite universal_newlines_other by done. by rewrite IH.
Qed.

Lemma new_content_no_CR b64 content :
  Forall (λ ch, ch ≠ CR) b64 → Forall (λ ch, ch ≠ CR) content →
  Forall (λ ch, ch ≠ CR) (new_content (data_uri b64) content).
Proof.
  intros Hb Hc. unfold new_content.
  assert (Forall (λ ch, ch ≠ CR) (data_uri b64)) as Hu.
  { apply Forall_app. split; [|done]. by_evaluation. }
  apply replace_Forall; [done| |apply replace_Forall; [done| |done]].
  - unfold replacement_webkit.
    rewrite !Forall_app, !Forall_cons, !Forall_app.
    repeat split; try done; by_evaluation.
  - unfold replacement_mask.
    rewrite !Forall_app, !Forall_cons, !Forall_app.
    repeat split; try done; by_evaluation.
Qed.

(** ** What one run does *)

#[local] Arguments icons_path : simpl never.
#[local] Arguments b64_path : simpl never.
#[local] Arguments not_found_message : simpl never.
#[local] Arguments warning_message : simpl never.
#[local] Arguments success_message : simpl never.
#[local] Arguments new_content : simpl never.
#[local] Arguments data_uri : simpl never.
#[local] Arguments strip : simpl never.
#[local] Arguments universal_newlines : simpl never.

Lemma paths_distinct : icons_path ≠ b64_path.
Proof. by_evaluation. Qed.

Lemma run_missing_icons fs :
  fs !! icons_path = None →
  run fs = (Exit 1, World fs [EvExists icons_path;
                              EvPrint (not_found_message icons_path)] []).
Proof.
  intros Hi. unfold run, main, mbind, M_bind, path_exists, interfere. simpl.
  rewrite Hi. reflexivity.
Qed.

Lemma run_missing_b64 fs n :
  fs !! icons_path = Some n → fs !! b64_path = None →
  run fs = (Exit 1, World fs [EvExists icons_path; EvExists b64_path;
                              EvPrint (not_found_message b64_path)] []).
Proof.
  intros Hi Hb. unfold run, main, mbind, M_bind, path_exists, interfere. simpl.
  rewrite Hi. simpl. rewrite Hb. reflexivity.
Qed.

(** The payload path exists but reading it raises. *)
Lemma run_payload_fault fs n nb e :
  fs !! icons_path = Some n → fs !! b64_path = Some nb →
  read_node nb = inr e →
  run fs = (Uncaught e, World fs [EvExists icons_path; EvExists b64_path;
                                  EvOpen b64_path ModeR] []).
Proof.
  intros Hi Hb He.
  unfold run, main, mbind, M_bind, path_exists, read_text, interfere. simpl.
  rewrite Hi. simpl. rewrite Hb. simpl. rewrite Hb, He. reflexivity.
Qed.

(** The payload was read, the icons path exists but reading it raises. *)
Lemma run_icons_fault fs n raw e :
  fs !! icons_path = Some n → fs !! b64_path = Some (Text raw) →
  read_node n = inr e →
  run fs = (Uncaught e, World fs [EvExists icons_path; EvExists b64_path;
                                  EvOpen b64_path ModeR; EvRead b64_path;
                                  EvOpen icons_path ModeR] []).
Proof.
  intros Hi Hb He.
  unfold run, main, mbind, M_bind, path_exists, read_text, interfere. simpl.
  rewrite Hi. simpl. rewrite Hb. simpl. rewrite Hb. simpl. rewrite Hi, He.
  reflexivity.
Qed.

Lemma run_present fs c raw :
  fs !! icons_path = Some (Text c) → fs !! b64_path = Some (Text raw) →
  let content := universal_newlines c in
  let new := new_content (data_uri (strip (universal_newlines raw))) content in
  run fs =
    if bool_decide (content = new)
    then (Ret (), World fs (trace_reads ++ [EvPrint warning_message]) [])
    else (Ret (), World (<[icons_path := Text new]> fs)
                    (trace_reads ++ [EvOpen icons_path ModeW;
                                     EvWrite icons_path new;
                                     EvPrint success_message]) []).
Proof.
  intros Hi Hb content new.
  unfold run, main, mbind, M_bind, path_exists, read_text, write_text, interfere.
  simpl.
  rewrite Hi. simpl. rewrite Hb. simpl. rewrite Hb. simpl. rewrite Hi. simpl.
  fold content. fold new.
  destruct (bool_decide (content = new)); [done|].
  simpl. rewrite Hi. reflexivity.
Qed.

(** ** Texts woven from segments and placeholder sites *)

Lemma new_content_weave b64 x rest :
  apostrophe ∉ b64 → target_free x → Forall (λ kx, target_free kx.2) rest →
  new_content (data_uri b64) (weave target_of x rest) =
  weave (replacement_of (data_uri b64)) x rest.
Proof.
  intros Hb Hx Hrest. revert x Hx.
  induction Hrest as [|[k x'] rest Hx' _ IH]; intros x [Hx1 Hx2].
  - by apply new_content_absent.
  - cbn [weave]. destruct k; cbn [target_of replacement_of].
    + rewrite new_content_site_mask by done. by rewrite IH.
    + rewrite new_content_site_webkit by done. by rewrite IH.
Qed.

(** ** The claims *)

(** C1, as stated, fails on two kinds of input.  First, a source text that
    holds each placeholder once and already holds the string that replaces
    the mask placeholder (payload [abcd]): the output holds that replacement
    string twice.  Second, a payload file that holds the text of the Webkit
    placeholder: the source text holds each placeholder once and no
    replacement string, and the output still holds the Webkit placeholder
    (twice) and holds the mask replacement string nowhere. *)
Lemma exact_two_sites_counterexample :
  (occurrences target_mask
     (target_mask ++ target_webkit ++ replacement_mask (data_uri (lit "abcd"))) = 1 ∧
   occurrences target_webkit
     (target_mask ++ target_webkit ++ replacement_mask (data_uri (lit "abcd"))) = 1 ∧
   occurrences (replacement_mask (data_uri (lit "abcd")))
     (new_content (data_uri (lit "abcd"))
        (target_mask ++ target_webkit ++ replacement_mask (data_uri (lit "abcd")))) = 2) ∧
  (occurrences target_mask (target_mask ++ target_webkit) = 1 ∧
   occurrences target_webkit (target_mask ++ target_webkit) = 1 ∧
   occurrences (replacement_mask (data_uri target_webkit))
     (target_mask ++ target_webkit) = 0 ∧
   occurrences (replacement_webkit (data_uri target_webkit))
     (target_mask ++ target_webkit) = 0 ∧
   occurrences target_webkit
     (new_content (data_uri target_webkit) (target_mask ++ target_webkit)) = 2 ∧
   occurrences (replacement_mask (data_uri target_webkit))
     (new_content (data_uri target_webkit) (target_mask ++ target_webkit)) = 0).
Proof. repeat split; vm_compute; reflexivity. Qed.

(** C1, amended: for a payload without apostrophe and a source text that
    holds each placeholder exactly once and neither replacement string, the
    output holds no placeholder and each replacement string exactly once;
    in general each replacement string gains one occurrence per occurrence
    of its placeholder.  Both replacement strings embed the one data URI. *)
Theorem exact_two_sites b64 s :
  apostrophe ∉ b64 →
  occurrences target_mask s = 1 → occurrences target_webkit s = 1 →
  occurrences (replacement_mask (data_uri b64)) s = 0 →
  occurrences (replacement_webkit (data_uri b64)) s = 0 →
  occurrences target_mask (new_content (data_uri b64) s) = 0 ∧
  occurrences target_webkit (new_content (data_uri b64) s) = 0 ∧
  occurrences (replacement_mask (data_uri b64)) (new_content (data_uri b64) s) = 1 ∧
  occurrences (replacement_webkit (data_uri b64)) (new_content (data_uri b64) s) = 1 ∧
  replacement_mask (data_uri b64) =
    lit "maskImage: 'url(" ++ dquote :: (uri_prefix ++ b64) ++ dquote :: lit ")'" ∧
  replacement_webkit (data_uri b64) =
    lit "WebkitMaskImage: 'url(" ++ dquote :: (uri_prefix ++ b64) ++ dquote :: lit ")'".
Proof.
  intros Hb Hm Hw Hrm Hrw.
  destruct (new_content_counts b64 Hb s) as (H1 & H2 & H3 & H4).
  rewrite H3, H4, Hm, Hw, Hrm, Hrw. by repeat split.
Qed.

Lemma exact_two_sites_witness :
  occurrences (replacement_mask (data_uri (lit "abcd1234==")))
    (new_content (data_uri (lit "abcd1234=="))
       (lit "a { " ++ target_mask ++ lit "; " ++ target_webkit ++ lit " }")) = 1.
Proof.
  refine (proj1 (proj2 (proj2
    (exact_two_sites (lit "abcd1234==")
       (lit "a { " ++ target_mask ++ lit "; " ++ target_webkit ++ lit " }")
       _ _ _ _ _)))).
  - by_evaluation.
  - vm_compute; reflexivity.
  - vm_compute; reflexivity.
  - vm_compute; reflexivity.
  - vm_compute; reflexivity.
Defined.

(** C2, as stated, fails: with the payload file holding the text of the
    Webkit placeholder, the two orders give different texts on a source that
    is the mask placeholder. *)
Lemma replacements_commute_counterexample :
  new_content (data_uri target_webkit) target_mask ≠
  new_content_swapped (data_uri target_webkit) target_mask.
Proof.
  intros Heq. apply (f_equal length) in Heq. vm_compute in Heq. discriminate.
Qed.

(** C2, amended: for every payload without apostrophe (every base64 text is
    one) and every source text the two literal replacements give the same
    text in either order, and neither changes the number of match sites of
    the other. *)
Theorem replacements_commute b64 s :
  apostrophe ∉ b64 →
  new_content (data_uri b64) s = new_content_swapped (data_uri b64) s ∧
  occurrences target_webkit
    (replace target_mask (replacement_mask (data_uri b64)) s) =
    occurrences target_webkit s ∧
  occurrences target_mask
    (replace target_webkit (replacement_webkit (data_uri b64)) s) =
    occurrences target_mask s.
Proof.
  intros Hb. split; [|split].
  - by apply new_content_swap.
  - by apply webkit_sites_kept.
  - by apply mask_sites_kept.
Qed.

Lemma replacements_commute_witness :
  new_content (data_uri (lit "abcd1234=="))
    (lit "x " ++ target_webkit ++ target_mask ++ target_mask) =
  new_content_swapped (data_uri (lit "abcd1234=="))
    (lit "x " ++ target_webkit ++ target_mask ++ target_mask).
Proof.
  refine (proj1 (replacements_commute (lit "abcd1234==") _ _)).
  by_evaluation.
Defined.

(** Both files of [fs] after the icons file was overwritten. *)
Lemma run_after_write fs c raw :
  fs !! icons_path = Some (Text c) → fs !! b64_path = Some (Text raw) →
  apostrophe ∉ strip (universal_newlines raw) →
  run (<[icons_path :=
          Text (new_content (data_uri (strip (universal_newlines raw)))
                            (universal_newlines c))]> fs) =
  (Ret (),
   World (<[icons_path :=
             Text (new_content (data_uri (strip (universal_newlines raw)))
                               (universal_newlines c))]> fs)
         (trace_reads ++ [EvPrint warning_message]) []).
Proof.
  intros Hi Hb Hfree.
  pose proof (run_present
    (<[icons_path := Text (new_content (data_uri (strip (universal_newlines raw)))
                                       (universal_newlines c))]> fs)
    (new_content (data_uri (strip (universal_newlines raw))) (universal_newlines c))
    raw) as Hrun.
  cbv zeta in Hrun. rewrite Hrun.
  - rewrite universal_newlines_id.
    + rewrite new_content_twice by done. by rewrite bool_decide_eq_true_2.
    + apply new_content_no_CR; [apply strip_Forall|];
        apply universal_newlines_no_CR.
  - apply lookup_insert_eq.
  - rewrite lookup_insert_ne; [done|apply paths_distinct].
Qed.

(** C3, as stated, fails: with the payload file holding the text of the mask
    placeholder, the replacement string holds that placeholder again, and a
    second application changes the text once more. *)
Lemma substitution_idempotent_counterexample :
  new_content (data_uri target_mask)
    (new_content (data_uri target_mask) target_mask) ≠
  new_content (data_uri target_mask) target_mask ∧
  files (run (files (run fs_payload_is_target).2)).2 !! icons_path ≠
  files (run fs_payload_is_target).2 !! icons_path ∧
  stdout (run (files (run fs_payload_is_target).2)) = [success_message].
Proof.
  split; [|split].
  - intros Heq. apply (f_equal length) in Heq. vm_compute in Heq. discriminate.
  - intros Heq.
    apply (f_equal (fmap (M := option)
                      (λ n, match n with Text d => length d | _ => 0 end)))
      in Heq.
    vm_compute in Heq. discriminate.
  - vm_compute. reflexivity.
Qed.

(** C3, amended: for every payload without apostrophe (every base64 text is
    one) applying the substitution to its own output changes nothing; and
    when the stripped payload file holds no apostrophe, a second run of the
    script finds the files as the first run left them, prints the no-change
    warning, writes nothing and exits with status 0. *)
Theorem substitution_idempotent :
  (∀ b64 s, apostrophe ∉ b64 →
     new_content (data_uri b64) (new_content (data_uri b64) s) =
     new_content (data_uri b64) s) ∧
  (∀ fs c raw,
     fs !! icons_path = Some (Text c) → fs !! b64_path = Some (Text raw) →
     apostrophe ∉ strip (universal_newlines raw) →
     files (run (files (run fs).2)).2 = files (run fs).2 ∧
     stdout (run (files (run fs).2)) = [warning_message] ∧
     written (run (files (run fs).2)) = [] ∧
     status (run (files (run fs).2)) = 0%Z).
Proof.
  split; [intros b64 s Hb; by apply new_content_twice|].
  intros fs c raw Hi Hb Hfree.
  pose proof (run_present fs c raw Hi Hb) as Hrun. cbv zeta in Hrun.
  destruct (bool_decide
              (universal_newlines c =
               new_content (data_uri (strip (universal_newlines raw)))
                           (universal_newlines c))) eqn:Hsame.
  - rewrite Hrun. cbn [snd files]. by rewrite Hrun.
  - rewrite Hrun. cbn [snd files].
    by rewrite (run_after_write fs c raw Hi Hb Hfree).
Qed.

Lemma substitution_idempotent_witness :
  new_content (data_uri (lit "abcd1234=="))
    (new_content (data_uri (lit "abcd1234==")) (target_mask ++ target_webkit)) =
  new_content (data_uri (lit "abcd1234==")) (target_mask ++ target_webkit) ∧
  files (run (files (run fs_with_targets).2)).2 = files (run fs_with_targets).2 ∧
  stdout (run (files (run fs_with_targets).2)) = [warning_message].
Proof.
  split.
  - refine (proj1 substitution_idempotent (lit "abcd1234==") _ _).
    by_evaluation.
  - destruct (proj2 substitution_idempotent fs_with_targets
                (lit "a { " ++ target_mask ++ lit "; " ++ target_webkit ++ lit " }")
                (lit "  abcd1234==" ++ [LF])) as (Hfiles & Hout & _).
    + vm_compute; reflexivity.
    + vm_compute; reflexivity.
    + by_evaluation.
    + by split.
Defined.

(** C4: when the source text read from the icons file holds neither
    placeholder, the substituted text equals it, the script prints the
    no-change warning, opens no file for writing and writes nothing, leaves
    every file as it was, and exits with status 0. *)
Theorem unchanged_content_detected fs c raw :
  fs !! icons_path = Some (Text c) → fs !! b64_path = Some (Text raw) →
  occurrences target_mask (universal_newlines c) = 0 →
  occurrences target_webkit (universal_newlines c) = 0 →
  new_content (data_uri (strip (universal_newlines raw))) (universal_newlines c) =
    universal_newlines c ∧
  stdout (run fs) = [warning_message] ∧
  written (run fs) = [] ∧
  Forall (λ pm, pm.2 = ModeR) (opened (run fs)) ∧
  files (run fs).2 = fs ∧
  status (run fs) = 0%Z.
Proof.
  intros Hi Hb Hm Hw.
  pose proof (new_content_absent (data_uri (strip (universal_newlines raw)))
                (universal_newlines c) Hm Hw) as Hsame.
  split; [done|].
  pose proof (run_present fs c raw Hi Hb) as Hrun. cbv zeta in Hrun.
  rewrite Hsame in Hrun. rewrite bool_decide_eq_true_2 in Hrun by done.
  rewrite Hrun. repeat split. by repeat constructor.
Qed.

Lemma unchanged_content_detected_witness :
  stdout (run fs_without_targets) = [warning_message] ∧
  files (run fs_without_targets).2 = fs_without_targets.
Proof.
  pose proof (unchanged_content_detected fs_without_targets
                (lit "const icon = null;" ++ [CR; LF])
                (lit "  abcd1234==" ++ [LF])) as H.
  destruct H as (_ & Hout & _ & _ & Hfiles & _);
    [vm_compute; reflexivity..|].
  by split.
Defined.

(** C5: when either input path is missing the script prints the error for
    that path and exits with status 1 having opened, read and written no
    file, so every file is as it was; when the icons path is missing it does
    not even look at the payload path. *)
Theorem missing_input_fails_fast fs :
  fs !! icons_path = None ∨ fs !! b64_path = None →
  status (run fs) = 1%Z ∧
  (stdout (run fs) = [not_found_message icons_path] ∨
   stdout (run fs) = [not_found_message b64_path]) ∧
  Forall (λ e, touches_file e = false) (trace (run fs).2) ∧
  files (run fs).2 = fs ∧
  (fs !! icons_path = None →
   trace (run fs).2 =
     [EvExists icons_path; EvPrint (not_found_message icons_path)]).
Proof.
  intros Hmissing. destruct (fs !! icons_path) as [c|] eqn:Hi.
  - destruct Hmissing as [?|Hb]; [done|].
    rewrite (run_missing_b64 fs c Hi Hb). repeat split; try done.
    + by right.
    + by repeat constructor.
  - rewrite (run_missing_icons fs Hi). repeat split; try done.
    + by left.
    + by repeat constructor.
Qed.

Lemma missing_input_fails_fast_witness :
  status (run ∅) = 1%Z ∧
  trace (run ∅).2 = [EvExists icons_path; EvPrint (not_found_message icons_path)].
Proof.
  destruct (missing_input_fails_fast ∅) as (Hst & _ & _ & _ & Htr).
  - left. reflexivity.
  - split; [exact Hst|]. apply Htr. reflexivity.
Defined.








(** C9: with both files present the icons file is overwritten exactly when
    the source text holds a placeholder.  A replacement string embeds the
    data URI, which starts with the fixed prefix, and is longer than its
    placeholder, hence never equal to it: a text with a placeholder grows,
    differs from the original and is written, with the success message; a
    text without placeholder stays equal and the warning is printed. *)
Theorem overwritten_iff_target_present fs c raw :
  fs !! icons_path = Some (Text c) → fs !! b64_path = Some (Text raw) →
  (written (run fs) ≠ [] ↔
   0 < occurrences target_mask (universal_newlines c) ∨
   0 < occurrences target_webkit (universal_newlines c)) ∧
  (0 < occurrences target_mask (universal_newlines c) ∨
   0 < occurrences target_webkit (universal_newlines c) →
   new_content (data_uri (strip (universal_newlines raw))) (universal_newlines c) ≠
     universal_newlines c ∧
   written (run fs) = [icons_path] ∧
   files (run fs).2 =
     <[icons_path := Text (new_content (data_uri (strip (universal_newlines raw)))
                                       (universal_newlines c))]> fs ∧
   stdout (run fs) = [success_message]) ∧
  (occurrences target_mask (universal_newlines c) = 0 ∧
   occurrences target_webkit (universal_newlines c) = 0 →
   new_content (data_uri (strip (universal_newlines raw))) (universal_newlines c) =
     universal_newlines c ∧
   written (run fs) = [] ∧ files (run fs).2 = fs ∧
   stdout (run fs) = [warning_message]) ∧
  replacement_mask (data_uri (strip (universal_newlines raw))) ≠ target_mask ∧
  replacement_webkit (data_uri (strip (universal_newlines raw))) ≠ target_webkit ∧
  uri_prefix `prefix_of` data_uri (strip (universal_newlines raw)).
Proof.
  intros Hi Hb.
  pose proof (run_present fs c raw Hi Hb) as Hrun. cbv zeta in Hrun.
  assert (0 < occurrences target_mask (universal_newlines c) ∨
          0 < occurrences target_webkit (universal_newlines c) →
          new_content (data_uri (strip (universal_newlines raw)))
            (universal_newlines c) ≠ universal_newlines c) as Hgrow.
  { intros Hocc Heq.
    pose proof (new_content_longer (strip (universal_newlines raw))
                  (universal_newlines c) Hocc) as Hlen.
    rewrite Heq in Hlen. lia. }
  assert (occurrences target_mask (universal_newlines c) = 0 ∧
          occurrences target_webkit (universal_newlines c) = 0 →
          new_content (data_uri (strip (universal_newlines raw)))
            (universal_newlines c) = universal_newlines c) as Hsame.
  { intros [H1 H2]. by apply new_content_absent. }
  repeat split.
  - intros Hw.
    destruct (decide (0 < occurrences target_mask (universal_newlines c) ∨
                      0 < occurrences target_webkit (universal_newlines c)))
      as [|Hno]; [done|].
    exfalso. apply Hw. rewrite Hrun, Hsame by lia.
    by rewrite bool_decide_eq_true_2.
  - intros Hocc. rewrite Hrun.
    rewrite bool_decide_eq_false_2 by (intros Heq; by apply Hgrow).
    done.
  - by apply Hgrow.
  - rewrite Hrun.
    by rewrite bool_decide_eq_false_2 by (intros Heq; by apply Hgrow).
  - rewrite Hrun.
    by rewrite bool_decide_eq_false_2 by (intros Heq; by apply Hgrow).
  - rewrite Hrun.
    by rewrite bool_decide_eq_false_2 by (intros Heq; by apply Hgrow).
  - by apply Hsame.
  - rewrite Hrun, Hsame by done. by rewrite bool_decide_eq_true_2.
  - rewrite Hrun, Hsame by done. by rewrite bool_decide_eq_true_2.
  - rewrite Hrun, Hsame by done. by rewrite bool_decide_eq_true_2.
  - intros Heq. apply (f_equal length) in Heq.
    rewrite replacement_mask_length in Heq. lia.
  - intros Heq. apply (f_equal length) in Heq.
    rewrite replacement_webkit_length in Heq. lia.
  - by apply prefix_app_r.
Qed.

Lemma overwritten_iff_target_present_witness :
  written (run fs_with_targets) = [icons_path] ∧
  stdout (run fs_with_targets) = [success_message].
Proof.
  destruct (overwritten_iff_target_present fs_with_targets
              (lit "a { " ++ target_mask ++ lit "; " ++ target_webkit ++ lit " }")
              (lit "  abcd1234==" ++ [LF]))
    as (_ & Hwrite & _); [vm_compute; reflexivity..|].
  destruct Hwrite as (_ & Hw & _ & Hout); [left; vm_compute; lia|].
  by split.
Defined.

(** C10: in every run the payload file is opened for reading only and keeps
    its contents; the only path ever opened for writing or written to is the
    icons file, and every other file is as it was. *)
Theorem payload_only_read fs :
  files (run fs).2 !! b64_path = fs !! b64_path ∧
  Forall (λ pm, pm.1 = b64_path → pm.2 = ModeR) (opened (run fs)) ∧
  Forall (λ pm, pm.2 = ModeW → pm.1 = icons_path) (opened (run fs)) ∧
  Forall (λ p, p = icons_path) (written (run fs)) ∧
  (∀ p, p ≠ icons_path → files (run fs).2 !! p = fs !! p).
Proof.
  pose proof paths_distinct as Hd.
  destruct (fs !! icons_path) as [ni|] eqn:Hi.
  - destruct (fs !! b64_path) as [nb|] eqn:Hb.
    + destruct (read_node nb) as [raw'|e] eqn:Hrb.
      * destruct nb as [raw| | |]; try done.
        destruct (read_node ni) as [c'|e] eqn:Hri.
        -- destruct ni as [c| | |]; try done.
           pose proof (run_present fs c raw Hi Hb) as Hrun. cbv zeta in Hrun.
           rewrite Hrun. case_bool_decide.
           ++ repeat split; try done; by repeat constructor.
           ++ repeat split.
              ** cbn [snd files]. rewrite lookup_insert_ne by done. done.
              ** repeat constructor; cbn; congruence.
              ** by repeat constructor.
              ** by repeat constructor.
              ** intros p Hp. cbn [snd files]. by rewrite lookup_insert_ne.
        -- rewrite (run_icons_fault fs ni raw e Hi Hb Hri).
           repeat split; try done; by repeat constructor.
      * rewrite (run_payload_fault fs ni nb e Hi Hb Hrb).
        repeat split; try done; by repeat constructor.
    + rewrite (run_missing_b64 fs ni Hi Hb).
      repeat split; try done; by repeat constructor.
  - rewrite (run_missing_icons fs Hi).
    repeat split; try done; by repeat constructor.
Qed.

Lemma payload_only_read_witness :
  files (run fs_with_targets).2 !! b64_path =
    Some (Text (lit "  abcd1234==" ++ [LF])).
Proof.
  rewrite (proj1 (payload_only_read fs_with_targets)).
  vm_compute. reflexivity.
Defined.

(** * Part III: further properties of the script

    ** More on the scan *)

Section scan_sites.
Context {A : Type} `{EqDecision A}.
Implicit Types (s old new a b c B : list A).

(** The scan works on each side of a block that matches cannot straddle. *)
Lemma replace_across_block old new B a c :
  old ≠ [] → clear_of old old → clear_of old B → old ≠ B →
  replace old new (a ++ B ++ c) = replace old new a ++ B ++ replace old new c.
Proof.
  intros Hne Hrigid Hcl HB. revert a. apply (targets_ind [old]).
  - by repeat constructor.
  - intros a Ha. apply Forall_cons in Ha as [Ha _].
    rewrite replace_pass_block by done. by rewrite (replace_absent old new a).
  - intros t a1 a2 Ht Ha IH.
    apply Forall_cons in Ha as [Ha _]. apply list_elem_of_singleton in Ht as ->.
    rewrite <- !app_assoc.
    rewrite (replace_hit_block old new a1 (a2 ++ B ++ c)) by done.
    rewrite (replace_hit_block old new a1 a2) by done.
    rewrite IH. by rewrite <- !app_assoc.
Qed.

(** The scan replaces a site and works on each side of it. *)
Lemma replace_across_site old new a c :
  old ≠ [] → clear_of old old →
  replace old new (a ++ old ++ c) = replace old new a ++ new ++ replace old new c.
Proof.
  intros Hne Hrigid. revert a. apply (targets_ind [old]).
  - by repeat constructor.
  - intros a Ha. apply Forall_cons in Ha as [Ha _].
    rewrite replace_hit_block by done. by rewrite (replace_absent old new a).
  - intros t a1 a2 Ht Ha IH.
    apply Forall_cons in Ha as [Ha _]. apply list_elem_of_singleton in Ht as ->.
    rewrite <- !app_assoc.
    rewrite (replace_hit_block old new a1 (a2 ++ old ++ c)) by done.
    rewrite (replace_hit_block old new a1 a2) by done.
    rewrite IH. by rewrite <- !app_assoc.
Qed.

(** Each match trades the length of [old] for the length of [new]. *)
Lemma replace_length_exact old new s :
  old ≠ [] → clear_of old old →
  length (replace old new s) + occurrences old s * length old =
  length s + occurrences old s * length new.
Proof.
  intros Hne Hrigid. revert s. apply (targets_ind [old]).
  - by repeat constructor.
  - intros s Hs. apply Forall_cons in Hs as [Hs _].
    rewrite replace_absent by done. rewrite Hs. lia.
  - intros t a b Ht Ha IH.
    apply Forall_cons in Ha as [Ha _]. apply list_elem_of_singleton in Ht as ->.
    rewrite replace_hit_block by done.
    rewrite occurrences_block by done. rewrite decide_True by done.
    rewrite Ha. rewrite !length_app. lia.
Qed.

End scan_sites.

(** ** More on the words, on stripping and on newline translation *)

Lemma targets_clear X X' :
  X ∈ [X_mask; X_webkit] → X' ∈ [X_mask; X_webkit] →
  clear_of (frame apostrophe X Y_target) (frame apostrophe X' Y_target).
Proof.
  intros HX HX'. destruct (X_free _ HX) as [? ?]. destruct (X_free _ HX') as [? ?].
  destruct Y_target_free as [? ?].
  apply (frame_clear apostrophe X Y_target X' Y_target 32%N 41%N); try done.
  - by apply X_suffix.
  - intros Hs. symmetry. by apply X_suffix.
Qed.

Lemma target_mask_clear_of_webkit : clear_of target_mask target_webkit.
Proof. apply (targets_clear X_mask X_webkit); rewrite !elem_of_cons; tauto. Qed.

Lemma targets_differ : target_mask ≠ target_webkit.
Proof. by_evaluation. Qed.

Lemma lstrip_app_space l s :
  Forall (λ ch, isspace ch = true) l → lstrip (l ++ s) = lstrip s.
Proof.
  induction 1 as [|ch l Hch _ IH]; [done|]. cbn [app lstrip]. by rewrite Hch.
Qed.

Lemma lstrip_keep s :
  (∀ ch, head s = Some ch → isspace ch = false) → lstrip s = s.
Proof.
  destruct s as [|ch s]; [done|]. intros Hh. cbn [lstrip].
  by rewrite (Hh ch).
Qed.

Lemma lstrip_space s : Forall (λ ch, isspace ch = true) s → lstrip s = [].
Proof.
  intros Hs. rewrite <- (app_nil_r s). by rewrite lstrip_app_space.
Qed.

Lemma universal_newlines_Forall (P : N → Prop) s :
  P LF → Forall P s → Forall P (universal_newlines s).
Proof.
  intros HLF. remember (length s) as n eqn:Hn. revert s Hn.
  induction n as [n IH] using lt_wf_ind. intros [|ch s] Hn Hs; [constructor|].
  apply Forall_cons in Hs as [Hch Hs].
  destruct (decide (ch = CR)) as [->|Hne].
  - destruct s as [|ch' s']; [by repeat constructor|].
    apply Forall_cons in Hs as [Hch' Hs'].
    destruct (decide (ch' = LF)) as [->|Hne'].
    + rewrite universal_newlines_CR_LF. constructor; [done|].
      apply (IH (length s')); [|done..]. subst n. simpl. lia.
    + rewrite universal_newlines_CR by done. constructor; [done|].
      apply (IH (length (ch' :: s'))); [|done|by constructor]. subst n. simpl. lia.
  - rewrite universal_newlines_other by done. constructor; [done|].
    apply (IH (length s)); [|done..]. subst n. simpl. lia.
Qed.

(** ** Further properties *)

(** X1: [strip] returns exactly the part between the leading and the
    trailing white space: a text made of white space [l], a middle [m] that
    neither starts nor ends with white space, and white space [r] is
    stripped to [m], with the white space inside [m] kept.  So stripping
    twice is stripping once, and white space only is stripped to the empty
    text. *)
Theorem strip_exact :
  (∀ l m r,
     Forall (λ ch, isspace ch = true) l → Forall (λ ch, isspace ch = true) r →
     (∀ ch, head m = Some ch ∨ last m = Some ch → isspace ch = false) →
     strip (l ++ m ++ r) = m) ∧
  (∀ s, strip (strip s) = strip s) ∧
  (∀ s, Forall (λ ch, isspace ch = true) s → strip s = []).
Proof.
  assert (∀ l m r,
     Forall (λ ch, isspace ch = true) l → Forall (λ ch, isspace ch = true) r →
     (∀ ch, head m = Some ch ∨ last m = Some ch → isspace ch = false) →
     strip (l ++ m ++ r) = m) as Hexact.
  { intros l m r Hl Hr Hm. unfold strip, rstrip.
    rewrite lstrip_app_space by done.
    destruct m as [|x m'] eqn:Em.
    - rewrite app_nil_l, (lstrip_space r) by done. done.
    - rewrite <- Em in *.
      rewrite (lstrip_keep (m ++ r)).
      + rewrite reverse_app, lstrip_app_space by by apply Forall_reverse.
        rewrite lstrip_keep; [apply reverse_involutive|].
        intros ch Hch. apply Hm. right. by rewrite <- head_reverse.
      + intros ch Hch. apply Hm. left. subst m. simpl in *. done. }
  split; [done|]. split.
  - intros s. rewrite <- (app_nil_r (strip s)) at 1.
    rewrite <- (app_nil_l (strip s ++ [])). apply Hexact; [done..|].
    apply strip_ends.
  - intros s Hs. rewrite <- (app_nil_l s). rewrite <- (app_nil_l ([] ++ s)).
    apply Hexact; [done..|]. by intros ch [?|?].
Qed.

Lemma strip_exact_witness :
  strip ([32; 9]%N ++ (lit "ab" ++ [LF] ++ lit "cd") ++ [CR; LF]) =
  lit "ab" ++ [LF] ++ lit "cd".
Proof.
  apply (proj1 strip_exact).
  - by repeat constructor.
  - by repeat constructor.
  - intros ch [Hch|Hch]; vm_compute in Hch; injection Hch as <-; reflexivity.
Defined.

Lemma strip_space s : Forall (λ ch, isspace ch = true) s → strip s = [].
Proof. intros Hs. unfold strip. by rewrite lstrip_space. Qed.

(** X2: the script does not check that the payload is non-empty.  When the
    payload file holds white space only, the data URI is the bare prefix;
    with a placeholder in the source text the script still overwrites the
    icons file, embedding that empty URI, prints the success message and
    exits with status 0. *)
Theorem blank_payload_embeds_empty_uri fs c raw :
  fs !! icons_path = Some (Text c) → fs !! b64_path = Some (Text raw) →
  Forall (λ ch, isspace ch = true) raw →
  data_uri (strip (universal_newlines raw)) = uri_prefix ∧
  (0 < occurrences target_mask (universal_newlines c) ∨
   0 < occurrences target_webkit (universal_newlines c) →
   files (run fs).2 !! icons_path =
     Some (Text (new_content uri_prefix (universal_newlines c))) ∧
   stdout (run fs) = [success_message] ∧
   status (run fs) = 0%Z).
Proof.
  intros Hi Hb Hraw.
  assert (data_uri (strip (universal_newlines raw)) = uri_prefix) as Huri.
  { rewrite strip_space by by apply universal_newlines_Forall.
    unfold data_uri. apply app_nil_r. }
  split; [done|]. intros Hocc.
  pose proof (run_present fs c raw Hi Hb) as Hrun. cbv zeta in Hrun.
  pose proof (new_content_longer (strip (universal_newlines raw))
                (universal_newlines c) Hocc) as Hlen.
  rewrite bool_decide_eq_false_2 in Hrun
    by (intros Heq; rewrite <- Heq in Hlen; lia).
  rewrite Hrun, Huri. repeat split. apply lookup_insert_eq.
Qed.

Lemma blank_payload_embeds_empty_uri_witness :
  files (run fs_blank_payload).2 !! icons_path =
    Some (Text (lit "WebkitMaskImage: 'url(" ++ dquote :: uri_prefix ++
                dquote :: lit ")'")) ∧
  stdout (run fs_blank_payload) = [success_message].
Proof.
  destruct (blank_payload_embeds_empty_uri fs_blank_payload
              target_webkit [32; CR; LF; 9]%N) as (_ & Hrun).
  - vm_compute; reflexivity.
  - vm_compute; reflexivity.
  - by repeat constructor.
  - destruct Hrun as (Hfile & Hout & _); [right; vm_compute; lia|].
    split; [|exact Hout]. rewrite Hfile. vm_compute. reflexivity.
Defined.

Lemma read_node_raises n e :
  read_node n = inr e → e ≠ lit "FileNotFoundError".
Proof.
  destruct n; intros He; cbn [read_node] in He; simplify_eq; by_evaluation.
Qed.



(** X4: a rewrite normalises the line ends.  Whenever the script writes the
    icons file, the text it stores is the substituted text, which holds no
    carriage return (each one read, alone or before a line feed, became a
    line feed), so reading it again in text mode returns it unchanged. *)
Theorem rewrite_normalises_newlines fs c raw :
  fs !! icons_path = Some (Text c) → fs !! b64_path = Some (Text raw) →
  written (run fs) ≠ [] →
  files (run fs).2 !! icons_path =
    Some (Text (new_content (data_uri (strip (universal_newlines raw)))
                            (universal_newlines c))) ∧
  Forall (λ ch, ch ≠ CR)
    (new_content (data_uri (strip (universal_newlines raw)))
                 (universal_newlines c)) ∧
  universal_newlines
    (new_content (data_uri (strip (universal_newlines raw)))
                 (universal_newlines c)) =
  new_content (data_uri (strip (universal_newlines raw))) (universal_newlines c).
Proof.
  intros Hi Hb Hw.
  pose proof (run_present fs c raw Hi Hb) as Hrun. cbv zeta in Hrun.
  assert (Forall (λ ch, ch ≠ CR)
            (new_content (data_uri (strip (universal_newlines raw)))
                         (universal_newlines c))) as Hfree.
  { apply new_content_no_CR; [apply strip_Forall|];
      apply universal_newlines_no_CR. }
  split; [|split; [done|by apply universal_newlines_id]].
  rewrite Hrun in Hw |- *. case_bool_decide; [done|].
  apply lookup_insert_eq.
Qed.

Lemma rewrite_normalises_newlines_witness :
  files (run fs_crlf).2 !! icons_path =
    Some (Text (lit "x" ++ [LF] ++ replacement_mask (data_uri (lit "QUJD")) ++
                [LF])).
Proof.
  destruct (rewrite_normalises_newlines fs_crlf
              (lit "x" ++ [CR; LF] ++ target_mask ++ [CR; LF])
              (lit "QUJD" ++ [CR; LF])) as (Hfile & _).
  - vm_compute; reflexivity.
  - vm_compute; reflexivity.
  - vm_compute. discriminate.
  - rewrite Hfile. vm_compute. reflexivity.
Defined.

(** X5: the substitution never shortens a text, whatever the payload; for a
    payload without apostrophe the text grows by exactly one character plus
    the length of the payload for every placeholder the source holds. *)
Theorem new_content_length :
  (∀ b64 s, length s ≤ length (new_content (data_uri b64) s)) ∧
  (∀ b64 s, apostrophe ∉ b64 →
     length (new_content (data_uri b64) s) =
     length s + (1 + length b64) *
                (occurrences target_mask s + occurrences target_webkit s)).
Proof.
  split.
  - intros b64 s. unfold new_content.
    pose proof (replacement_mask_length b64).
    pose proof (replacement_webkit_length b64).
    pose proof (replace_length_le target_mask (replacement_mask (data_uri b64)) s
                  target_mask_nonempty ltac:(lia)).
    pose proof (replace_length_le target_webkit
                  (replacement_webkit (data_uri b64))
                  (replace target_mask (replacement_mask (data_uri b64)) s)
                  target_webkit_nonempty ltac:(lia)).
    lia.
  - intros b64 s Hb. unfold new_content.
    pose proof (replace_length_exact target_mask
                  (replacement_mask (data_uri b64)) s
                  target_mask_nonempty target_mask_rigid) as H1.
    pose proof (replace_length_exact target_webkit
                  (replacement_webkit (data_uri b64))
                  (replace target_mask (replacement_mask (data_uri b64)) s)
                  target_webkit_nonempty target_webkit_rigid) as H2.
    rewrite (webkit_sites_kept b64 Hb) in H2.
    rewrite replacement_mask_length in H1.
    rewrite replacement_webkit_length in H2. lia.
Qed.

Lemma new_content_length_witness :
  length (new_content (data_uri (lit "QUJD"))
            (lit "a" ++ target_mask ++ target_webkit ++ target_mask)) =
  length (lit "a" ++ target_mask ++ target_webkit ++ target_mask) + (1 + 4) * (2 + 1).
Proof.
  apply (proj2 new_content_length (lit "QUJD")). by_evaluation.
Defined.

(** X6: the substitution works placeholder by placeholder.  For every data
    URI, a Webkit placeholder anywhere in the source is replaced by the
    Webkit replacement string and the texts before and after it are
    substituted on their own; for a payload without apostrophe the same
    holds at a mask placeholder. *)
Theorem new_content_across_sites :
  (∀ uri a c,
     new_content uri (a ++ target_webkit ++ c) =
     new_content uri a ++ replacement_webkit uri ++ new_content uri c) ∧
  (∀ b64 a c, apostrophe ∉ b64 →
     new_content (data_uri b64) (a ++ target_mask ++ c) =
     new_content (data_uri b64) a ++ replacement_mask (data_uri b64) ++
     new_content (data_uri b64) c).
Proof.
  split.
  - intros uri a c. unfold new_content.
    rewrite (replace_across_block target_mask);
      [|done|apply target_mask_rigid|apply target_mask_clear_of_webkit
       |apply targets_differ].
    by rewrite (replace_across_site target_webkit)
      by (done || apply target_webkit_rigid).
  - intros b64 a c Hb. unfold new_content.
    pose proof (script_words_distinct b64) as Hd. unfold script_words in Hd.
    rewrite !NoDup_cons, !not_elem_of_cons in Hd.
    rewrite (replace_across_site target_mask)
      by (done || apply target_mask_rigid).
    rewrite (replace_across_block target_webkit);
      [done|done|apply target_webkit_rigid| |tauto].
    apply (script_words_clear b64 Hb); unfold script_words;
      rewrite !elem_of_cons; tauto.
Qed.

Lemma new_content_across_sites_witness :
  new_content (data_uri (lit "QUJD")) (target_webkit ++ target_mask ++ lit "z") =
  new_content (data_uri (lit "QUJD")) target_webkit ++
  replacement_mask (data_uri (lit "QUJD")) ++
  new_content (data_uri (lit "QUJD")) (lit "z").
Proof.
  apply (proj2 new_content_across_sites (lit "QUJD")). by_evaluation.
Defined.



(** X8: after any run with both files present and a base64 payload, the
    icons file holds no placeholder: the text a later read returns has no
    occurrence of either placeholder, however many the source held. *)
Theorem no_placeholder_left fs c raw :
  fs !! icons_path = Some (Text c) → fs !! b64_path = Some (Text raw) →
  Forall (λ ch, base64_char ch = true) (strip (universal_newlines raw)) →
  ∃ d, files (run fs).2 !! icons_path = Some (Text d) ∧
       occurrences target_mask (universal_newlines d) = 0 ∧
       occurrences target_webkit (universal_newlines d) = 0.
Proof.
  intros Hi Hb H64. apply base64_no_apostrophe in H64.
  pose proof (run_present fs c raw Hi Hb) as Hrun. cbv zeta in Hrun.
  destruct (new_content_counts _ H64 (universal_newlines c)) as (H1 & H2 & _).
  rewrite Hrun. case_bool_decide as Hsame.
  - exists c. split; [done|]. rewrite Hsame. by split.
  - exists (new_content (data_uri (strip (universal_newlines raw)))
                        (universal_newlines c)).
    split; [apply lookup_insert_eq|].
    rewrite universal_newlines_id; [by split|].
    apply new_content_no_CR; [apply strip_Forall|];
      apply universal_newlines_no_CR.
Qed.

Lemma no_placeholder_left_witness :
  ∃ d, files (run fs_crlf).2 !! icons_path = Some (Text d) ∧
       occurrences target_mask (universal_newlines d) = 0 ∧
       occurrences target_webkit (universal_newlines d) = 0.
Proof.
  apply (no_placeholder_left fs_crlf
           (lit "x" ++ [CR; LF] ++ target_mask ++ [CR; LF])
           (lit "QUJD" ++ [CR; LF])).
  - vm_compute; reflexivity.
  - vm_compute; reflexivity.
  - by repeat constructor.
Defined.

(** X9: for a payload without apostrophe and any source text, the output
    holds each replacement string once for every occurrence of its
    placeholder in the source, next to the copies the source already held;
    the replacement of one placeholder adds no copy of the other's
    replacement string. *)
Theorem replacement_counts b64 s :
  apostrophe ∉ b64 →
  occurrences (replacement_mask (data_uri b64)) (new_content (data_uri b64) s) =
    occurrences (replacement_mask (data_uri b64)) s + occurrences target_mask s ∧
  occurrences (replacement_webkit (data_uri b64)) (new_content (data_uri b64) s) =
    occurrences (replacement_webkit (data_uri b64)) s + occurrences target_webkit s.
Proof.
  intros Hb. destruct (new_content_counts b64 Hb s) as (_ & _ & H3 & H4).
  by split.
Qed.

Lemma replacement_counts_witness :
  occurrences (replacement_mask (data_uri (lit "QUJD")))
    (new_content (data_uri (lit "QUJD"))
       (target_mask ++ replacement_mask (data_uri (lit "QUJD")) ++
        target_mask ++ target_webkit)) = 1 + 2.
Proof.
  refine (eq_trans (proj1 (replacement_counts (lit "QUJD") _ _)) _).
  - by_evaluation.
  - vm_compute. reflexivity.
Defined.
